(** * Serial circular buffer service: index arithmetic and the
      arm / interrupt handshake

    A shallow embedding of [serial_circular_buffer_service.cpp] and of the
    parts of its hardware abstraction layer that the driver calls, followed
    by the properties of the transmit manager, the receive tracker and the
    interrupt coordinator.

    Conventions of the embedding.
    - [uint32_t] and [int32_t] values are integers of [Z]; every C operation
      that can wrap is written with [to_uint32] / [to_int32].
    - A [char *] into one of the two storage regions is an address (a [Z])
      together with the bytes of the region ([rx_storage], [tx_storage]); a
      pointer into the middle of a region is the index it designates.
    - Undefined behaviour (a remainder by zero, an access outside a region,
      a call through a null instance pointer) is a [Fault]; every fallible
      operation returns a [result].
    - The level-triggered status bits the interrupt handler reads from
      [UART_SR] belong to the hardware: they are arguments of the handler. *)

From stdpp Require Import base numbers option list gmap.
From Stdlib Require Import Strings.Byte.

Local Open Scope Z_scope.

(** ** Machine integers *)

Definition to_uint32 (z : Z) : Z := z mod 2 ^ 32.

Definition to_int32 (z : Z) : Z :=
  let u := z mod 2 ^ 32 in
  if u <? 2 ^ 31 then u else u - 2 ^ 32.

(** ** Faults and the error monad *)

Inductive fault : Set :=
  | DivisionByZero
  | OutOfBounds
  | NullDereference.

Inductive result (A : Type) : Type :=
  | Ok (a : A)
  | Fault (f : fault).
Arguments Ok {A} a.
Arguments Fault {A} f.

Global Instance result_bind : MBind result := λ A B k m,
  match m with
  | Ok a => k a
  | Fault f => Fault f
  end.

(** [a % b] on [uint32_t]. *)
Definition umod (a b : Z) : result Z :=
  if b =? 0 then Fault DivisionByZero else Ok (a mod b).

(** [a / b] on [uint32_t]. *)
Definition udiv (a b : Z) : result Z :=
  if b =? 0 then Fault DivisionByZero else Ok (a / b).

(** ** Storage regions *)

Definition region_size (m : list byte) : Z := Z.of_nat (length m).

(** The [n] bytes of region [m] from index [i] on. *)
Definition slice (m : list byte) (i n : Z) : list byte :=
  take (Z.to_nat n) (drop (Z.to_nat i) m).

(** Region [dest] after the [n] bytes of [src] from index [s] on have been
    copied to its indices [d], ..., [d + n - 1]. *)
Definition blit (dest : list byte) (d : Z) (src : list byte) (s n : Z) : list byte :=
  take (Z.to_nat d) dest ++ slice src s n ++ drop (Z.to_nat (d + n)) dest.

(** [memcpy(&dest[d], &src[s], n)]: both ranges must lie inside their
    region. *)
Definition memcpy (dest : list byte) (d : Z) (src : list byte) (s n : Z)
  : result (list byte) :=
  if bool_decide (0 ≤ d ∧ 0 ≤ s ∧ 0 ≤ n ∧
                  d + n ≤ region_size dest ∧ s + n ≤ region_size src)
  then Ok (blit dest d src s n)
  else Fault OutOfBounds.

(** [m[i]] read by the processor. *)
Definition load (m : list byte) (i : Z) : result byte :=
  if bool_decide (0 ≤ i) then
    match m !! Z.to_nat i with
    | Some b => Ok b
    | None => Fault OutOfBounds
    end
  else Fault OutOfBounds.

(** ** Peripherals *)

(** [uart_t] is a pointer to a UART register block; [init] tells apart the
    two ports of the part and anything else. *)
Inductive uart_t : Set :=
  | UART_PORT_0
  | UART_PORT_1
  | UART_unsupported (address : Z).

Inductive pdc_t : Set :=
  | PDC_UART_PORT_0
  | PDC_UART_PORT_1.

Inductive uart_parity_selection_t : Set :=
  | UART_PARITY_EVEN
  | UART_PARITY_ODD
  | UART_PARITY_SPACE
  | UART_PARITY_MARK
  | UART_PARITY_NONE.

Definition parity_value (p : uart_parity_selection_t) : Z :=
  match p with
  | UART_PARITY_EVEN => 0
  | UART_PARITY_ODD => 1
  | UART_PARITY_SPACE => 2
  | UART_PARITY_MARK => 3
  | UART_PARITY_NONE => 4
  end.

(** One contiguous transfer handed to the transmit channel of the PDC: the
    address and count written to [PERIPH_TPR] / [PERIPH_TCR], and the bytes
    that the region held there when the channel was armed. *)
Record tx_transfer : Set := {
  transfer_address : Z;
  transfer_count : Z;
  transfer_bytes : list byte
}.

(** The registers of the UART and of its PDC channel that the driver
    writes.  [UART_IER] and [UART_IDR] are write-only set / clear registers
    of the interrupt mask, [PERIPH_PTCR] of the transfer enables: the
    record keeps the bits they control.  [UART_BRGR_CD] and [UART_MR_PAR]
    keep the values [HAL_UART_INITIAILZE] passes to the field macros of the
    device header.  [tx_transfers] is the history of the transfers armed on
    the transmit channel, oldest first. *)
Record peripheral : Type := {
  UART_BRGR_CD : Z;
  UART_MR_PAR : Z;
  UART_IMR_RXBUFF : bool;
  UART_IMR_TXBUFE : bool;
  PERIPH_RXTEN : bool;
  PERIPH_TXTEN : bool;
  PERIPH_RPR : Z;
  PERIPH_RCR : Z;
  PERIPH_TPR : Z;
  PERIPH_TCR : Z;
  tx_transfers : list tx_transfer
}.

Definition reset_peripheral : peripheral :=
  {| UART_BRGR_CD := 0; UART_MR_PAR := 0;
     UART_IMR_RXBUFF := false; UART_IMR_TXBUFE := false;
     PERIPH_RXTEN := false; PERIPH_TXTEN := false;
     PERIPH_RPR := 0; PERIPH_RCR := 0; PERIPH_TPR := 0; PERIPH_TCR := 0;
     tx_transfers := [] |}.

Definition set_line (cd par : Z) (p : peripheral) : peripheral :=
  {| UART_BRGR_CD := cd; UART_MR_PAR := par;
     UART_IMR_RXBUFF := UART_IMR_RXBUFF p; UART_IMR_TXBUFE := UART_IMR_TXBUFE p;
     PERIPH_RXTEN := PERIPH_RXTEN p; PERIPH_TXTEN := PERIPH_TXTEN p;
     PERIPH_RPR := PERIPH_RPR p; PERIPH_RCR := PERIPH_RCR p;
     PERIPH_TPR := PERIPH_TPR p; PERIPH_TCR := PERIPH_TCR p;
     tx_transfers := tx_transfers p |}.

Definition set_IMR_RXBUFF (b : bool) (p : peripheral) : peripheral :=
  {| UART_BRGR_CD := UART_BRGR_CD p; UART_MR_PAR := UART_MR_PAR p;
     UART_IMR_RXBUFF := b; UART_IMR_TXBUFE := UART_IMR_TXBUFE p;
     PERIPH_RXTEN := PERIPH_RXTEN p; PERIPH_TXTEN := PERIPH_TXTEN p;
     PERIPH_RPR := PERIPH_RPR p; PERIPH_RCR := PERIPH_RCR p;
     PERIPH_TPR := PERIPH_TPR p; PERIPH_TCR := PERIPH_TCR p;
     tx_transfers := tx_transfers p |}.

Definition set_IMR_TXBUFE (b : bool) (p : peripheral) : peripheral :=
  {| UART_BRGR_CD := UART_BRGR_CD p; UART_MR_PAR := UART_MR_PAR p;
     UART_IMR_RXBUFF := UART_IMR_RXBUFF p; UART_IMR_TXBUFE := b;
     PERIPH_RXTEN := PERIPH_RXTEN p; PERIPH_TXTEN := PERIPH_TXTEN p;
     PERIPH_RPR := PERIPH_RPR p; PERIPH_RCR := PERIPH_RCR p;
     PERIPH_TPR := PERIPH_TPR p; PERIPH_TCR := PERIPH_TCR p;
     tx_transfers := tx_transfers p |}.

Definition set_transfer_enables (rx tx : bool) (p : peripheral) : peripheral :=
  {| UART_BRGR_CD := UART_BRGR_CD p; UART_MR_PAR := UART_MR_PAR p;
     UART_IMR_RXBUFF := UART_IMR_RXBUFF p; UART_IMR_TXBUFE := UART_IMR_TXBUFE p;
     PERIPH_RXTEN := rx; PERIPH_TXTEN := tx;
     PERIPH_RPR := PERIPH_RPR p; PERIPH_RCR := PERIPH_RCR p;
     PERIPH_TPR := PERIPH_TPR p; PERIPH_TCR := PERIPH_TCR p;
     tx_transfers := tx_transfers p |}.

Definition set_receive_channel (address size : Z) (p : peripheral) : peripheral :=
  {| UART_BRGR_CD := UART_BRGR_CD p; UART_MR_PAR := UART_MR_PAR p;
     UART_IMR_RXBUFF := UART_IMR_RXBUFF p; UART_IMR_TXBUFE := UART_IMR_TXBUFE p;
     PERIPH_RXTEN := PERIPH_RXTEN p; PERIPH_TXTEN := PERIPH_TXTEN p;
     PERIPH_RPR := address; PERIPH_RCR := size;
     PERIPH_TPR := PERIPH_TPR p; PERIPH_TCR := PERIPH_TCR p;
     tx_transfers := tx_transfers p |}.

Definition set_transmit_channel (address size : Z) (bytes : list byte)
    (p : peripheral) : peripheral :=
  {| UART_BRGR_CD := UART_BRGR_CD p; UART_MR_PAR := UART_MR_PAR p;
     UART_IMR_RXBUFF := UART_IMR_RXBUFF p; UART_IMR_TXBUFE := UART_IMR_TXBUFE p;
     PERIPH_RXTEN := PERIPH_RXTEN p; PERIPH_TXTEN := PERIPH_TXTEN p;
     PERIPH_RPR := PERIPH_RPR p; PERIPH_RCR := PERIPH_RCR p;
     PERIPH_TPR := address; PERIPH_TCR := size;
     tx_transfers := tx_transfers p ++
       [ {| transfer_address := address; transfer_count := size;
            transfer_bytes := bytes |} ] |}.

(** *** HAL_serial_circular_buffer *)

(** [HAL_UART_INITIAILZE].  Of its effects the model keeps the baud rate
    divisor [SystemCoreClock / (baudrate * 16)], the parity and the
    disabling of both PDC channels; the commands written to the control
    register and the pin routing are outside the driver core. *)
Definition HAL_UART_INITIAILZE (SystemCoreClock baudrate parity : Z)
    (p : peripheral) : result peripheral :=
  cd ← udiv SystemCoreClock (to_uint32 (baudrate * 16));
  Ok (set_transfer_enables false false (set_line cd parity p)).

(** [HAL_PDC_RX_INIT_NO_NEXT]: address first, then the counter, which
    starts the channel. *)
Definition HAL_PDC_RX_INIT_NO_NEXT (address size : Z) (p : peripheral) : peripheral :=
  set_receive_channel address size p.

(** [HAL_PDC_TX_INIT_NO_NEXT]; [bytes] is what the channel will fetch. *)
Definition HAL_PDC_TX_INIT_NO_NEXT (address size : Z) (bytes : list byte)
    (p : peripheral) : peripheral :=
  set_transmit_channel address size bytes p.

Definition HAL_UART_ENABLE_TX_BUFFER_EMPTY_INTERRUPT := set_IMR_TXBUFE true.
Definition HAL_UART_DISABLE_TX_BUFFER_EMPTY_INTERRUPT := set_IMR_TXBUFE false.
Definition HAL_UART_ENABLE_RX_BUFFER_FULL_INTERRUPT := set_IMR_RXBUFF true.

Definition HAL_PDC_ENABLE_TRANSMITTER_TRANSFER (p : peripheral) : peripheral :=
  set_transfer_enables (PERIPH_RXTEN p) true p.
Definition HAL_PDC_ENABLE_RECEIVER_TRANSFER (p : peripheral) : peripheral :=
  set_transfer_enables true (PERIPH_TXTEN p) p.

Definition HAL_PDC_READ_RECEIVE_COUNTER_VALUE (p : peripheral) : Z := PERIPH_RCR p.

(** ** The driver object *)

(** The data members of [class serial_circular_buffer], the contents of the
    two caller-supplied regions its buffer pointers designate, and the
    register block of the peripheral the instance is bound to.  A null
    base address is [None].  The register block is the object's view of
    its port: it is the block of the port as long as the object stays on
    that port and is the only object bound to it. *)
Record serial_circular_buffer : Type := {
  uart_peripheral_base_address : option uart_t;
  pdc_peripheral_base_address : option pdc_t;
  rx_buffer : Z;
  rx_buffer_size : Z;
  pdc_tx_buffer : Z;
  tx_buffer_size : Z;
  tx_buffer_head_index : Z;
  tx_buffer_tail_index : Z;
  rx_buffer_tail_index : Z;
  pdc_Tx_in_progress : bool;
  rx_storage : list byte;
  tx_storage : list byte;
  registers : peripheral
}.

(** An object of static storage duration before [init] has run. *)
Definition zero_initialized : serial_circular_buffer :=
  {| uart_peripheral_base_address := None;
     pdc_peripheral_base_address := None;
     rx_buffer := 0; rx_buffer_size := 0;
     pdc_tx_buffer := 0; tx_buffer_size := 0;
     tx_buffer_head_index := 0; tx_buffer_tail_index := 0;
     rx_buffer_tail_index := 0; pdc_Tx_in_progress := false;
     rx_storage := []; tx_storage := [];
     registers := reset_peripheral |}.

Definition set_tx_buffer_head_index (i : Z) (s : serial_circular_buffer) :=
  {| uart_peripheral_base_address := uart_peripheral_base_address s;
     pdc_peripheral_base_address := pdc_peripheral_base_address s;
     rx_buffer := rx_buffer s; rx_buffer_size := rx_buffer_size s;
     pdc_tx_buffer := pdc_tx_buffer s; tx_buffer_size := tx_buffer_size s;
     tx_buffer_head_index := i;
     tx_buffer_tail_index := tx_buffer_tail_index s;
     rx_buffer_tail_index := rx_buffer_tail_index s;
     pdc_Tx_in_progress := pdc_Tx_in_progress s;
     rx_storage := rx_storage s; tx_storage := tx_storage s;
     registers := registers s |}.

Definition set_tx_buffer_tail_index (i : Z) (s : serial_circular_buffer) :=
  {| uart_peripheral_base_address := uart_peripheral_base_address s;
     pdc_peripheral_base_address := pdc_peripheral_base_address s;
     rx_buffer := rx_buffer s; rx_buffer_size := rx_buffer_size s;
     pdc_tx_buffer := pdc_tx_buffer s; tx_buffer_size := tx_buffer_size s;
     tx_buffer_head_index := tx_buffer_head_index s;
     tx_buffer_tail_index := i;
     rx_buffer_tail_index := rx_buffer_tail_index s;
     pdc_Tx_in_progress := pdc_Tx_in_progress s;
     rx_storage := rx_storage s; tx_storage := tx_storage s;
     registers := registers s |}.

Definition set_rx_buffer_tail_index (i : Z) (s : serial_circular_buffer) :=
  {| uart_peripheral_base_address := uart_peripheral_base_address s;
     pdc_peripheral_base_address := pdc_peripheral_base_address s;
     rx_buffer := rx_buffer s; rx_buffer_size := rx_buffer_size s;
     pdc_tx_buffer := pdc_tx_buffer s; tx_buffer_size := tx_buffer_size s;
     tx_buffer_head_index := tx_buffer_head_index s;
     tx_buffer_tail_index := tx_buffer_tail_index s;
     rx_buffer_tail_index := i;
     pdc_Tx_in_progress := pdc_Tx_in_progress s;
     rx_storage := rx_storage s; tx_storage := tx_storage s;
     registers := registers s |}.

Definition set_pdc_Tx_in_progress (b : bool) (s : serial_circular_buffer) :=
  {| uart_peripheral_base_address := uart_peripheral_base_address s;
     pdc_peripheral_base_address := pdc_peripheral_base_address s;
     rx_buffer := rx_buffer s; rx_buffer_size := rx_buffer_size s;
     pdc_tx_buffer := pdc_tx_buffer s; tx_buffer_size := tx_buffer_size s;
     tx_buffer_head_index := tx_buffer_head_index s;
     tx_buffer_tail_index := tx_buffer_tail_index s;
     rx_buffer_tail_index := rx_buffer_tail_index s;
     pdc_Tx_in_progress := b;
     rx_storage := rx_storage s; tx_storage := tx_storage s;
     registers := registers s |}.

Definition set_tx_storage (m : list byte) (s : serial_circular_buffer) :=
  {| uart_peripheral_base_address := uart_peripheral_base_address s;
     pdc_peripheral_base_address := pdc_peripheral_base_address s;
     rx_buffer := rx_buffer s; rx_buffer_size := rx_buffer_size s;
     pdc_tx_buffer := pdc_tx_buffer s; tx_buffer_size := tx_buffer_size s;
     tx_buffer_head_index := tx_buffer_head_index s;
     tx_buffer_tail_index := tx_buffer_tail_index s;
     rx_buffer_tail_index := rx_buffer_tail_index s;
     pdc_Tx_in_progress := pdc_Tx_in_progress s;
     rx_storage := rx_storage s; tx_storage := m;
     registers := registers s |}.

Definition set_registers (p : peripheral) (s : serial_circular_buffer) :=
  {| uart_peripheral_base_address := uart_peripheral_base_address s;
     pdc_peripheral_base_address := pdc_peripheral_base_address s;
     rx_buffer := rx_buffer s; rx_buffer_size := rx_buffer_size s;
     pdc_tx_buffer := pdc_tx_buffer s; tx_buffer_size := tx_buffer_size s;
     tx_buffer_head_index := tx_buffer_head_index s;
     tx_buffer_tail_index := tx_buffer_tail_index s;
     rx_buffer_tail_index := rx_buffer_tail_index s;
     pdc_Tx_in_progress := pdc_Tx_in_progress s;
     rx_storage := rx_storage s; tx_storage := tx_storage s;
     registers := p |}.

(** *** Private member functions *)

Definition get_rx_buffer_head_index (s : serial_circular_buffer) : Z :=
  to_uint32 (rx_buffer_size s - HAL_PDC_READ_RECEIVE_COUNTER_VALUE (registers s)).

Definition increment_rx_buffer_tail_index (increment_index : Z)
    (s : serial_circular_buffer) : result serial_circular_buffer :=
  i ← umod (to_uint32 (rx_buffer_tail_index s + increment_index)) (rx_buffer_size s);
  Ok (set_rx_buffer_tail_index i s).

Definition increment_tx_buffer_head_index (increment_index : Z)
    (s : serial_circular_buffer) : result serial_circular_buffer :=
  i ← umod (to_uint32 (tx_buffer_head_index s + increment_index)) (tx_buffer_size s);
  Ok (set_tx_buffer_head_index i s).

Definition increment_tx_buffer_tail_index (increment_index : Z)
    (s : serial_circular_buffer) : result serial_circular_buffer :=
  i ← umod (to_uint32 (tx_buffer_tail_index s + increment_index)) (tx_buffer_size s);
  Ok (set_tx_buffer_tail_index i s).

(** [int32_t difference = head - tail; if (difference < 0) difference +=
    size; return (uint32_t)difference;] with the conversions between
    [uint32_t] and [int32_t] that C performs. *)
Definition wrapped_difference (head tail size : Z) : Z :=
  let difference := to_int32 (to_uint32 (head - tail)) in
  let difference :=
    if difference <? 0
    then to_int32 (to_uint32 (to_uint32 difference + size))
    else difference in
  to_uint32 difference.

Definition get_number_of_unsent_bytes (s : serial_circular_buffer) : Z :=
  wrapped_difference (tx_buffer_head_index s) (tx_buffer_tail_index s)
    (tx_buffer_size s).

(** [pointer_to_Tx_buffer] is [&pdc_tx_buffer[index]]. *)
Definition initiate_PDC_Tx (index bytes_to_transfer : Z)
    (s : serial_circular_buffer) : serial_circular_buffer :=
  set_registers
    (HAL_UART_ENABLE_TX_BUFFER_EMPTY_INTERRUPT
       (HAL_PDC_TX_INIT_NO_NEXT
          (to_uint32 (pdc_tx_buffer s + index)) bytes_to_transfer
          (slice (tx_storage s) index bytes_to_transfer)
          (registers s)))
    s.

(** *** Public member functions *)

(** Everything [init] does to the object and to its peripheral. *)
Definition init (SystemCoreClock : Z) (uart_port_base_addr : uart_t)
    (Rx_buffer_ptr : Z) (Rx_region : list byte) (Rx_buffer_size_in_bytes : Z)
    (Tx_buffer_ptr : Z) (Tx_region : list byte) (Tx_buffer_size_in_bytes : Z)
    (baud_rate : Z) (parity : uart_parity_selection_t)
    (s : serial_circular_buffer) : result serial_circular_buffer :=
  let pdc :=
    match uart_port_base_addr with
    | UART_PORT_0 => Some PDC_UART_PORT_0
    | UART_PORT_1 => Some PDC_UART_PORT_1
    | UART_unsupported _ => pdc_peripheral_base_address s
    end in
  p ← HAL_UART_INITIAILZE SystemCoreClock baud_rate (parity_value parity)
         (registers s);
  let p := HAL_PDC_RX_INIT_NO_NEXT Rx_buffer_ptr Rx_buffer_size_in_bytes p in
  let p := HAL_PDC_ENABLE_TRANSMITTER_TRANSFER p in
  let p := HAL_PDC_ENABLE_RECEIVER_TRANSFER p in
  let p := HAL_UART_ENABLE_RX_BUFFER_FULL_INTERRUPT p in
  let p := HAL_UART_DISABLE_TX_BUFFER_EMPTY_INTERRUPT p in
  Ok {| uart_peripheral_base_address := Some uart_port_base_addr;
        pdc_peripheral_base_address := pdc;
        rx_buffer := Rx_buffer_ptr;
        rx_buffer_size := Rx_buffer_size_in_bytes;
        pdc_tx_buffer := Tx_buffer_ptr;
        tx_buffer_size := Tx_buffer_size_in_bytes;
        tx_buffer_head_index := 0;
        tx_buffer_tail_index := 0;
        rx_buffer_tail_index := 0;
        pdc_Tx_in_progress := false;
        rx_storage := Rx_region;
        tx_storage := Tx_region;
        registers := p |}.

Definition get_latest_byte (s : serial_circular_buffer)
  : result (byte * serial_circular_buffer) :=
  return_byte ← load (rx_storage s) (rx_buffer_tail_index s);
  s ← increment_rx_buffer_tail_index 1 s;
  Ok (return_byte, s).

Definition get_number_of_unread_bytes (s : serial_circular_buffer) : Z :=
  wrapped_difference (get_rx_buffer_head_index s) (rx_buffer_tail_index s)
    (rx_buffer_size s).

Definition copy_packet_into_Tx_buffer_and_transmit
    (serialized_data_to_transmit : list byte) (number_of_bytes_to_transmit : Z)
    (s : serial_circular_buffer) : result serial_circular_buffer :=
  let initial_tx_buffer_head_index := tx_buffer_head_index s in
  let circular_buffer_rollover_condition :=
    tx_buffer_size s <? to_uint32 (number_of_bytes_to_transmit + tx_buffer_head_index s) in
  let first_contiguous_block_size :=
    if circular_buffer_rollover_condition
    then to_uint32 (tx_buffer_size s - tx_buffer_head_index s)
    else number_of_bytes_to_transmit in
  let second_contiguous_block_size :=
    if circular_buffer_rollover_condition
    then to_uint32 (to_uint32 (number_of_bytes_to_transmit + tx_buffer_head_index s)
                    - tx_buffer_size s)
    else 0 in
  m ← memcpy (tx_storage s) (tx_buffer_head_index s)
         serialized_data_to_transmit 0 first_contiguous_block_size;
  s ← increment_tx_buffer_head_index first_contiguous_block_size (set_tx_storage m s);
  s ← (if circular_buffer_rollover_condition then
         m ← memcpy (tx_storage s) (tx_buffer_head_index s)
                serialized_data_to_transmit first_contiguous_block_size
                second_contiguous_block_size;
         increment_tx_buffer_head_index second_contiguous_block_size
           (set_tx_storage m s)
       else Ok s);
  if pdc_Tx_in_progress s then Ok s
  else
    s ← increment_tx_buffer_tail_index first_contiguous_block_size
           (set_pdc_Tx_in_progress true s);
    Ok (initiate_PDC_Tx initial_tx_buffer_head_index first_contiguous_block_size s).

(** The same function statement by statement: the states of the object and
    of its peripheral after each statement that writes to one of them, in
    program order.  An interrupt can be served only between two of them. *)
Definition copy_packet_into_Tx_buffer_and_transmit_trace
    (serialized_data_to_transmit : list byte) (number_of_bytes_to_transmit : Z)
    (s : serial_circular_buffer) : result (list serial_circular_buffer) :=
  let initial_tx_buffer_head_index := tx_buffer_head_index s in
  let circular_buffer_rollover_condition :=
    tx_buffer_size s <? to_uint32 (number_of_bytes_to_transmit + tx_buffer_head_index s) in
  let first_contiguous_block_size :=
    if circular_buffer_rollover_condition
    then to_uint32 (tx_buffer_size s - tx_buffer_head_index s)
    else number_of_bytes_to_transmit in
  let second_contiguous_block_size :=
    if circular_buffer_rollover_condition
    then to_uint32 (to_uint32 (number_of_bytes_to_transmit + tx_buffer_head_index s)
                    - tx_buffer_size s)
    else 0 in
  m ← memcpy (tx_storage s) (tx_buffer_head_index s)
         serialized_data_to_transmit 0 first_contiguous_block_size;
  let s1 := set_tx_storage m s in
  s2 ← increment_tx_buffer_head_index first_contiguous_block_size s1;
  '(s, second_copy) ←
    (if circular_buffer_rollover_condition then
       m ← memcpy (tx_storage s2) (tx_buffer_head_index s2)
              serialized_data_to_transmit first_contiguous_block_size
              second_contiguous_block_size;
       let s3 := set_tx_storage m s2 in
       s4 ← increment_tx_buffer_head_index second_contiguous_block_size s3;
       Ok (s4, [s3; s4])
     else Ok (s2, []));
  if pdc_Tx_in_progress s then Ok ([s1; s2] ++ second_copy)
  else
    let s5 := set_pdc_Tx_in_progress true s in
    s6 ← increment_tx_buffer_tail_index first_contiguous_block_size s5;
    Ok ([s1; s2] ++ second_copy
        ++ [s5; s6;
            initiate_PDC_Tx initial_tx_buffer_head_index
              first_contiguous_block_size s6]).

(** [receive_buffer_full] and [transmit_buffer_empty] are what the two
    reads of [UART_SR] return ([HAL_UART_IS_RECEIVE_BUFFER_FULL],
    [HAL_UART_IS_TRANSMIT_BUFFER_EMPTY]). *)
Definition serial_circular_buffer_irq_handler
    (receive_buffer_full transmit_buffer_empty : bool)
    (s : serial_circular_buffer) : result serial_circular_buffer :=
  let s :=
    if receive_buffer_full
    then set_registers
           (HAL_PDC_RX_INIT_NO_NEXT (rx_buffer s) (rx_buffer_size s) (registers s)) s
    else s in
  if transmit_buffer_empty then
    let number_of_unsent_tx_bytes := get_number_of_unsent_bytes s in
    if negb (number_of_unsent_tx_bytes =? 0) then
      let number_of_bytes_to_send :=
        if tx_buffer_head_index s <? tx_buffer_tail_index s
        then to_uint32 (tx_buffer_size s - tx_buffer_tail_index s)
        else number_of_unsent_tx_bytes in
      let s := initiate_PDC_Tx (tx_buffer_tail_index s) number_of_bytes_to_send s in
      s ← increment_tx_buffer_tail_index number_of_bytes_to_send s;
      Ok (set_pdc_Tx_in_progress true s)
    else
      Ok (set_registers
            (HAL_UART_DISABLE_TX_BUFFER_EMPTY_INTERRUPT (registers s))
            (set_pdc_Tx_in_progress false s))
  else Ok s.

(** ** The program: instance pointers, objects and interrupt vectors *)

(** The address of a [serial_circular_buffer] object. *)
Definition objref : Set := positive.

(** The two global instance pointers ([None] is [NULL]), the interrupt
    lines [ENABLE_IRQ] has enabled, the clock variable of the HAL, and the
    statically allocated driver objects. *)
Record program_state : Type := {
  UART0_ISR_instance_ptr : option objref;
  UART1_ISR_instance_ptr : option objref;
  UART0_IRQ_enabled : bool;
  UART1_IRQ_enabled : bool;
  SystemCoreClock : Z;
  objects : gmap objref serial_circular_buffer
}.

(** The program before any constructor or [init] has run: both instance
    pointers hold their initializer [NULL]. *)
Definition startup (clock : Z) : program_state :=
  {| UART0_ISR_instance_ptr := None;
     UART1_ISR_instance_ptr := None;
     UART0_IRQ_enabled := false;
     UART1_IRQ_enabled := false;
     SystemCoreClock := clock;
     objects := ∅ |}.

Definition object_at (this : objref) (σ : program_state) : serial_circular_buffer :=
  default zero_initialized (objects σ !! this).

Definition store_object (this : objref) (s : serial_circular_buffer)
    (σ : program_state) : program_state :=
  {| UART0_ISR_instance_ptr := UART0_ISR_instance_ptr σ;
     UART1_ISR_instance_ptr := UART1_ISR_instance_ptr σ;
     UART0_IRQ_enabled := UART0_IRQ_enabled σ;
     UART1_IRQ_enabled := UART1_IRQ_enabled σ;
     SystemCoreClock := SystemCoreClock σ;
     objects := <[this := s]> (objects σ) |}.

(** [this->init(...)]: the object part is [init]; the instance pointer of
    the port is set to [this] and its interrupt line is enabled. *)
Definition call_init (this : objref) (uart_port_base_addr : uart_t)
    (Rx_buffer_ptr : Z) (Rx_region : list byte) (Rx_buffer_size_in_bytes : Z)
    (Tx_buffer_ptr : Z) (Tx_region : list byte) (Tx_buffer_size_in_bytes : Z)
    (baud_rate : Z) (parity : uart_parity_selection_t)
    (σ : program_state) : result program_state :=
  s ← init (SystemCoreClock σ) uart_port_base_addr
         Rx_buffer_ptr Rx_region Rx_buffer_size_in_bytes
         Tx_buffer_ptr Tx_region Tx_buffer_size_in_bytes
         baud_rate parity (object_at this σ);
  Ok {| UART0_ISR_instance_ptr :=
          match uart_port_base_addr with
          | UART_PORT_0 => Some this
          | _ => UART0_ISR_instance_ptr σ
          end;
        UART1_ISR_instance_ptr :=
          match uart_port_base_addr with
          | UART_PORT_1 => Some this
          | _ => UART1_ISR_instance_ptr σ
          end;
        UART0_IRQ_enabled :=
          match uart_port_base_addr with
          | UART_PORT_0 => true
          | _ => UART0_IRQ_enabled σ
          end;
        UART1_IRQ_enabled :=
          match uart_port_base_addr with
          | UART_PORT_1 => true
          | _ => UART1_IRQ_enabled σ
          end;
        SystemCoreClock := SystemCoreClock σ;
        objects := <[this := s]> (objects σ) |}.

(** A member function called on the object at [this]. *)
Definition call_on (this : objref)
    (f : serial_circular_buffer → result serial_circular_buffer)
    (σ : program_state) : result program_state :=
  s ← f (object_at this σ);
  Ok (store_object this s σ).

(** [ptr->serial_circular_buffer_irq_handler()]. *)
Definition call_through (ptr : option objref)
    (receive_buffer_full transmit_buffer_empty : bool)
    (σ : program_state) : result program_state :=
  match ptr with
  | None => Fault NullDereference
  | Some this =>
      call_on this
        (serial_circular_buffer_irq_handler receive_buffer_full transmit_buffer_empty)
        σ
  end.

Definition UART0_Handler (receive_buffer_full transmit_buffer_empty : bool)
    (σ : program_state) : result program_state :=
  call_through (UART0_ISR_instance_ptr σ) receive_buffer_full transmit_buffer_empty σ.

Definition UART1_Handler (receive_buffer_full transmit_buffer_empty : bool)
    (σ : program_state) : result program_state :=
  call_through (UART1_ISR_instance_ptr σ) receive_buffer_full transmit_buffer_empty σ.

(** What the application and the interrupt controller can do to the
    program. *)
Inductive action : Type :=
  | Do_init (this : objref) (uart_port_base_addr : uart_t)
      (Rx_buffer_ptr : Z) (Rx_region : list byte) (Rx_buffer_size_in_bytes : Z)
      (Tx_buffer_ptr : Z) (Tx_region : list byte) (Tx_buffer_size_in_bytes : Z)
      (baud_rate : Z) (parity : uart_parity_selection_t)
  | Do_get_latest_byte (this : objref)
  | Do_copy_packet (this : objref) (data : list byte) (number_of_bytes : Z)
  | Do_handler (this : objref) (receive_buffer_full transmit_buffer_empty : bool)
  | Irq_UART0 (receive_buffer_full transmit_buffer_empty : bool)
  | Irq_UART1 (receive_buffer_full transmit_buffer_empty : bool).

Definition perform (a : action) (σ : program_state) : result program_state :=
  match a with
  | Do_init this port rp rr rs tp tr ts baud par =>
      call_init this port rp rr rs tp tr ts baud par σ
  | Do_get_latest_byte this =>
      call_on this (λ s, r ← get_latest_byte s; Ok r.2) σ
  | Do_copy_packet this data n =>
      call_on this (copy_packet_into_Tx_buffer_and_transmit data n) σ
  | Do_handler this rxf txe =>
      call_on this (serial_circular_buffer_irq_handler rxf txe) σ
  | Irq_UART0 rxf txe => UART0_Handler rxf txe σ
  | Irq_UART1 rxf txe => UART1_Handler rxf txe σ
  end.

Fixpoint perform_all (l : list action) (σ : program_state) : result program_state :=
  match l with
  | [] => Ok σ
  | a :: l => σ ← perform a σ; perform_all l σ
  end.

Definition is_init_of (port : uart_t) (a : action) : Prop :=
  match a with
  | Do_init _ p _ _ _ _ _ _ _ _ => p = port
  | _ => False
  end.

(** ** Traces of one driver *)

(** Calls of the application and invocations of the interrupt handler on
    one driver object.  A packet is passed with its own length. *)
Inductive event : Type :=
  | Enqueue (data : list byte)
  | Interrupt (receive_buffer_full transmit_buffer_empty : bool).

Definition handle (e : event) (s : serial_circular_buffer)
  : result serial_circular_buffer :=
  match e with
  | Enqueue data =>
      copy_packet_into_Tx_buffer_and_transmit data (region_size data) s
  | Interrupt rxf txe => serial_circular_buffer_irq_handler rxf txe s
  end.

Fixpoint handle_all (l : list event) (s : serial_circular_buffer)
  : result serial_circular_buffer :=
  match l with
  | [] => Ok s
  | e :: l => s ← handle e s; handle_all l s
  end.

Fixpoint enqueued (l : list event) : list byte :=
  match l with
  | [] => []
  | Enqueue data :: l => data ++ enqueued l
  | Interrupt _ _ :: l => enqueued l
  end.

Definition nonempty_packet (e : event) : Prop :=
  match e with
  | Enqueue data => data ≠ []
  | Interrupt _ _ => True
  end.

(** Transmit-complete interrupts are served until the transmitter is idle.
    [None]: the fuel ran out first. *)
Fixpoint drive_until_idle (fuel : nat) (s : serial_circular_buffer)
  : option (result serial_circular_buffer) :=
  match fuel with
  | O => None
  | S fuel =>
      if pdc_Tx_in_progress s then
        match serial_circular_buffer_irq_handler false true s with
        | Ok s => drive_until_idle fuel s
        | Fault f => Some (Fault f)
        end
      else Some (Ok s)
  end.

(** All the bytes handed to the transmit channel so far, in arming order. *)
Definition handed_to_hardware (s : serial_circular_buffer) : list byte :=
  concat (transfer_bytes <$> tx_transfers (registers s)).

(** ** Valid driver states *)

(** Both regions have the size recorded for them, a size that a signed
    32-bit difference of two indices can span, and the stored indices lie
    inside their region. *)
Record valid (s : serial_circular_buffer) : Prop := {
  valid_rx_size : 0 < rx_buffer_size s ≤ 2 ^ 31;
  valid_tx_size : 0 < tx_buffer_size s ≤ 2 ^ 31;
  valid_rx_storage : region_size (rx_storage s) = rx_buffer_size s;
  valid_tx_storage : region_size (tx_storage s) = tx_buffer_size s;
  valid_tx_head : 0 ≤ tx_buffer_head_index s < tx_buffer_size s;
  valid_tx_tail : 0 ≤ tx_buffer_tail_index s < tx_buffer_size s;
  valid_rx_tail : 0 ≤ rx_buffer_tail_index s < rx_buffer_size s
}.

(** The part of validity the interrupt handler depends on: a 32-bit
    capacity and transmit indices inside it. *)
Definition tx_indices_in_range (s : serial_circular_buffer) : Prop :=
  0 < tx_buffer_size s < 2 ^ 32
  ∧ 0 ≤ tx_buffer_head_index s < tx_buffer_size s
  ∧ 0 ≤ tx_buffer_tail_index s < tx_buffer_size s.

Definition idle (s : serial_circular_buffer) : Prop :=
  pdc_Tx_in_progress s = false ∧ tx_buffer_head_index s = tx_buffer_tail_index s.

(** The invariant of the transmit buffer. *)
Definition idle_implies_drained (s : serial_circular_buffer) : Prop :=
  pdc_Tx_in_progress s = false → get_number_of_unsent_bytes s = 0.

(** The states a driver object can be in once [init] has returned. *)
Inductive reachable : serial_circular_buffer → Prop :=
  | reachable_init clock port rp rr rs tp tr ts baud par s0 s :
      init clock port rp rr rs tp tr ts baud par s0 = Ok s →
      reachable s
  | reachable_enqueue data n s s' :
      reachable s →
      copy_packet_into_Tx_buffer_and_transmit data n s = Ok s' →
      reachable s'
  | reachable_interrupt rxf txe s s' :
      reachable s →
      serial_circular_buffer_irq_handler rxf txe s = Ok s' →
      reachable s'
  | reachable_read b s s' :
      reachable s →
      get_latest_byte s = Ok (b, s') →
      reachable s'.


(** ** The transmit manager without machine arithmetic *)

(** The outcome of [copy_packet_into_Tx_buffer_and_transmit] written with
    unbounded integers, for a packet passed with its own length. *)
Definition rolls_over (s : serial_circular_buffer) (n : Z) : bool :=
  tx_buffer_size s <? n + tx_buffer_head_index s.

Definition first_block (s : serial_circular_buffer) (n : Z) : Z :=
  if rolls_over s n then tx_buffer_size s - tx_buffer_head_index s else n.

Definition second_block (s : serial_circular_buffer) (n : Z) : Z :=
  if rolls_over s n then n + tx_buffer_head_index s - tx_buffer_size s else 0.

Definition written (data : list byte) (s : serial_circular_buffer) : list byte :=
  let n := region_size data in
  let m := blit (tx_storage s) (tx_buffer_head_index s) data 0 (first_block s n) in
  if rolls_over s n then blit m 0 data (first_block s n) (second_block s n) else m.

Definition copied (data : list byte) (s : serial_circular_buffer)
  : serial_circular_buffer :=
  set_tx_buffer_head_index
    ((tx_buffer_head_index s + region_size data) mod tx_buffer_size s)
    (set_tx_storage (written data s) s).

Definition preloaded (data : list byte) (s : serial_circular_buffer)
  : serial_circular_buffer :=
  set_tx_buffer_tail_index
    ((tx_buffer_tail_index s + first_block s (region_size data))
       mod tx_buffer_size s)
    (set_pdc_Tx_in_progress true (copied data s)).

Definition enqueue_outcome (data : list byte) (s : serial_circular_buffer)
  : serial_circular_buffer :=
  if pdc_Tx_in_progress s then copied data s
  else initiate_PDC_Tx (tx_buffer_head_index s)
         (first_block s (region_size data)) (preloaded data s).

(** The state after the receive-full branch of the handler. *)
Definition receive_rearmed (receive_buffer_full : bool)
    (s : serial_circular_buffer) : serial_circular_buffer :=
  if receive_buffer_full
  then set_registers
         (HAL_PDC_RX_INIT_NO_NEXT (rx_buffer s) (rx_buffer_size s) (registers s)) s
  else s.

(** The length of the next run the handler arms. *)
Definition next_run (s : serial_circular_buffer) : Z :=
  if tx_buffer_head_index s <? tx_buffer_tail_index s
  then tx_buffer_size s - tx_buffer_tail_index s
  else get_number_of_unsent_bytes s.

(** The outcome of the handler when the transmit-empty condition is
    signalled. *)
Definition transmit_complete_outcome (receive_buffer_full : bool)
    (s : serial_circular_buffer) : serial_circular_buffer :=
  let r := receive_rearmed receive_buffer_full s in
  if get_number_of_unsent_bytes s =? 0 then
    set_registers (HAL_UART_DISABLE_TX_BUFFER_EMPTY_INTERRUPT (registers r))
      (set_pdc_Tx_in_progress false r)
  else
    set_pdc_Tx_in_progress true
      (set_tx_buffer_tail_index
         ((tx_buffer_tail_index s + next_run s) mod tx_buffer_size s)
         (initiate_PDC_Tx (tx_buffer_tail_index s) (next_run s) r)).

(** ** Accounting for the bytes of a trace *)

(** [s] is reached from an idle state whose head was [origin] and whose
    hardware had received [before]: the packets enqueued since then make up
    [queued], and the first [armed] bytes of it have been handed to the
    hardware. *)
Record tracks (before : list byte) (origin : Z) (queued : list byte) (armed : Z)
    (s : serial_circular_buffer) : Prop := {
  tracks_valid : valid s;
  tracks_armed : 0 ≤ armed ≤ region_size queued;
  tracks_capacity : region_size queued ≤ tx_buffer_size s;
  tracks_head :
    tx_buffer_head_index s = (origin + region_size queued) mod tx_buffer_size s;
  tracks_tail :
    tx_buffer_tail_index s = (origin + armed) mod tx_buffer_size s;
  tracks_hardware :
    handed_to_hardware s = before ++ take (Z.to_nat armed) queued;
  tracks_idle : pdc_Tx_in_progress s = false → armed = region_size queued;
  tracks_busy : pdc_Tx_in_progress s = true → 0 < armed;
  tracks_storage : ∀ k, 0 ≤ k < region_size queued →
    tx_storage s !! Z.to_nat ((origin + k) mod tx_buffer_size s)
    = queued !! Z.to_nat k
}.

(** How many more transmit-complete interrupts a busy transmitter needs
    before it is idle if nothing else is enqueued. *)
Definition interrupts_to_idle (s : serial_circular_buffer) : nat :=
  if pdc_Tx_in_progress s then
    if get_number_of_unsent_bytes s =? 0 then 1%nat
    else if tx_buffer_head_index s <? tx_buffer_tail_index s then 3%nat
    else 2%nat
  else 0%nat.

(** An idle transmitter has nothing left to send. *)
Definition drained_when_idle (s : serial_circular_buffer) : Prop :=
  valid s ∧
  (pdc_Tx_in_progress s = false → tx_buffer_tail_index s = tx_buffer_head_index s).

(** ** Concrete drivers *)

(** An idle driver over a transmit region of [capacity] zero bytes at
    address [0x20001000], with head and tail at [head], and a receive
    region of four bytes. *)
Definition idle_driver (capacity : nat) (head : Z) : serial_circular_buffer :=
  {| uart_peripheral_base_address := Some UART_PORT_0;
     pdc_peripheral_base_address := Some PDC_UART_PORT_0;
     rx_buffer := 0x20000000; rx_buffer_size := 4;
     pdc_tx_buffer := 0x20001000; tx_buffer_size := Z.of_nat capacity;
     tx_buffer_head_index := head; tx_buffer_tail_index := head;
     rx_buffer_tail_index := 0; pdc_Tx_in_progress := false;
     rx_storage := replicate 4 "000"%byte;
     tx_storage := replicate capacity "000"%byte;
     registers := reset_peripheral |}.

(** Indices only: a driver whose transmit capacity is [capacity], for the
    index arithmetic, which reads no storage. *)
Definition indices_only (capacity head tail : Z) : serial_circular_buffer :=
  {| uart_peripheral_base_address := None;
     pdc_peripheral_base_address := None;
     rx_buffer := 0; rx_buffer_size := capacity;
     pdc_tx_buffer := 0; tx_buffer_size := capacity;
     tx_buffer_head_index := head; tx_buffer_tail_index := tail;
     rx_buffer_tail_index := tail; pdc_Tx_in_progress := true;
     rx_storage := []; tx_storage := [];
     registers := reset_peripheral |}.

(** ** Further behaviour of the driver *)

(** The two ports [init] knows. *)
Definition supported_port (port : uart_t) : Prop :=
  port = UART_PORT_0 ∨ port = UART_PORT_1.

(** [k] calls of [get_latest_byte] in a row, with the bytes they return. *)
Fixpoint read_many (k : nat) (s : serial_circular_buffer)
  : result (list byte * serial_circular_buffer) :=
  match k with
  | O => Ok ([], s)
  | S k =>
      r ← get_latest_byte s;
      rest ← read_many k r.2;
      Ok (r.1 :: rest.1, rest.2)
  end.

(** The bytes of the transmit region between tail and head, in the order
    of the indices modulo the capacity. *)
Definition pending_bytes (s : serial_circular_buffer) : list byte :=
  if tx_buffer_head_index s <? tx_buffer_tail_index s then
    slice (tx_storage s) (tx_buffer_tail_index s)
      (tx_buffer_size s - tx_buffer_tail_index s)
    ++ slice (tx_storage s) 0 (tx_buffer_head_index s)
  else
    slice (tx_storage s) (tx_buffer_tail_index s)
      (tx_buffer_head_index s - tx_buffer_tail_index s).

(** What is left to hand over while the interrupts of a busy transmitter
    [s] are served: [x] has the head and the region of [s], and the bytes
    it has handed over plus its own pending bytes are those of [s]. *)
Definition draining (s x : serial_circular_buffer) : Prop :=
  valid x
  ∧ tx_buffer_head_index x = tx_buffer_head_index s
  ∧ tx_storage x = tx_storage s
  ∧ (pdc_Tx_in_progress x = true →
     handed_to_hardware x ++ pending_bytes x
     = handed_to_hardware s ++ pending_bytes s)
  ∧ (pdc_Tx_in_progress x = false →
     tx_buffer_tail_index x = tx_buffer_head_index x
     ∧ handed_to_hardware x = handed_to_hardware s ++ pending_bytes s).

(** An enabled interrupt line has an instance to call. *)
Definition enabled_lines_have_instances (σ : program_state) : Prop :=
  (UART0_IRQ_enabled σ = true → is_Some (UART0_ISR_instance_ptr σ))
  ∧ (UART1_IRQ_enabled σ = true → is_Some (UART1_ISR_instance_ptr σ)).

Definition is_irq_of_port_0 (a : action) : Prop :=
  match a with Irq_UART0 _ _ => True | _ => False end.

Definition is_irq_of_port_1 (a : action) : Prop :=
  match a with Irq_UART1 _ _ => True | _ => False end.

(** What a transmit buffer owes after [queued] has been enqueued on top of
    [before]: while a transfer runs, the bytes handed over followed by the
    pending ones are [before ++ queued]; when idle, everything was handed
    over and tail has caught up with head. *)
Definition accounted (before queued : list byte) (x : serial_circular_buffer)
  : Prop :=
  valid x
  ∧ get_number_of_unsent_bytes x ≤ region_size queued
  ∧ (pdc_Tx_in_progress x = true →
     handed_to_hardware x ++ pending_bytes x = before ++ queued)
  ∧ (pdc_Tx_in_progress x = false →
     tx_buffer_tail_index x = tx_buffer_head_index x
     ∧ handed_to_hardware x = before ++ queued).

(** The data members of an object, without the registers of its
    peripheral: those belong to the port, not to the object. *)
Definition members (s : serial_circular_buffer) : serial_circular_buffer :=
  set_registers reset_peripheral s.

(** Validity of a concrete driver, by computation. *)
Ltac valid_by_computation :=
  constructor; vm_compute; (done || lia || (split; congruence)).

(** ** Machine arithmetic *)

Lemma to_uint32_small z : 0 ≤ z < 2 ^ 32 → to_uint32 z = z.
Proof. intros. unfold to_uint32. by rewrite Z.mod_small. Qed.


Lemma to_int32_small z : 0 ≤ z < 2 ^ 31 → to_int32 z = z.
Proof.
  intros. unfold to_int32. rewrite Z.mod_small by lia.
  case_match; [done | lia].
Qed.

Lemma to_uint32_neg z : - 2 ^ 32 ≤ z < 0 → to_uint32 z = z + 2 ^ 32.
Proof.
  intros. unfold to_uint32.
  rewrite <- (Z.mod_add z 1) by lia. rewrite Z.mod_small; lia.
Qed.

Lemma to_int32_high z : 2 ^ 31 ≤ z < 2 ^ 32 → to_int32 z = z - 2 ^ 32.
Proof.
  intros. unfold to_int32. rewrite Z.mod_small by lia.
  case_match; [lia | done].
Qed.

(** No wrap-around in [wrapped_difference] when the capacity is at most
    [2 ^ 31]. *)
Lemma wrapped_difference_spec head tail size :
  0 < size ≤ 2 ^ 31 → 0 ≤ head < size → 0 ≤ tail < size →
  wrapped_difference head tail size = (head - tail + size) mod size.
Proof.
  intros Hs Hh Ht. unfold wrapped_difference.
  destruct (decide (tail ≤ head)) as [Hle | Hgt].
  - rewrite (to_uint32_small (head - tail)) by lia.
    rewrite to_int32_small by lia.
    case_match; [lia |].
    rewrite to_uint32_small by lia.
    replace (head - tail + size) with (head - tail + 1 * size) by lia.
    rewrite Z.mod_add by lia. rewrite Z.mod_small; lia.
  - rewrite (to_uint32_neg (head - tail)) by lia.
    rewrite to_int32_high by lia.
    case_match; [| lia].
    replace (head - tail + 2 ^ 32 - 2 ^ 32) with (head - tail) by lia.
    rewrite (to_uint32_neg (head - tail)) by lia.
    replace (to_uint32 (head - tail + 2 ^ 32 + size)) with (head - tail + size).
    2:{ unfold to_uint32.
        replace (head - tail + 2 ^ 32 + size)
          with (head - tail + size + 1 * 2 ^ 32) by lia.
        rewrite Z.mod_add by lia. rewrite Z.mod_small; lia. }
    rewrite to_int32_small by lia.
    rewrite to_uint32_small by lia.
    rewrite Z.mod_small; lia.
Qed.


Lemma wrapped_difference_zero head tail size :
  0 < size ≤ 2 ^ 31 → 0 ≤ head < size → 0 ≤ tail < size →
  wrapped_difference head tail size = 0 ↔ head = tail.
Proof.
  intros Hs Hh Ht. rewrite wrapped_difference_spec by done.
  destruct (decide (tail ≤ head)).
  - replace (head - tail + size) with (head - tail + 1 * size) by lia.
    rewrite Z.mod_add by lia. rewrite Z.mod_small; lia.
  - rewrite Z.mod_small; lia.
Qed.

Lemma to_uint32_to_int32 z : to_uint32 (to_int32 z) = to_uint32 z.
Proof.
  unfold to_int32, to_uint32. case_match.
  - apply Z.mod_mod. lia.
  - replace (z mod 2 ^ 32 - 2 ^ 32) with (z mod 2 ^ 32 + -1 * 2 ^ 32) by lia.
    rewrite Z.mod_add by lia. apply Z.mod_mod. lia.
Qed.

Lemma to_uint32_high z : 2 ^ 32 ≤ z < 2 ^ 33 → to_uint32 z = z - 2 ^ 32.
Proof.
  intros. unfold to_uint32.
  replace z with (z - 2 ^ 32 + 1 * 2 ^ 32) at 1 by lia.
  rewrite Z.mod_add by lia. rewrite Z.mod_small; lia.
Qed.

(** Whatever the capacity, a run that starts at the tail and has the
    computed length ends at the head at the latest when head is not below
    tail. *)
Lemma wrapped_difference_contiguous head tail size :
  0 < size < 2 ^ 32 → 0 ≤ tail → tail ≤ head → head < size →
  0 ≤ wrapped_difference head tail size ≤ head - tail.
Proof.
  intros Hs Ht Hle Hh. unfold wrapped_difference.
  rewrite (to_uint32_small (head - tail)) by lia.
  destruct (decide (head - tail < 2 ^ 31)).
  - rewrite to_int32_small by lia. case_match; [lia |].
    rewrite to_uint32_small; lia.
  - rewrite to_int32_high by lia. case_match; [| lia].
    rewrite to_uint32_to_int32.
    rewrite (to_uint32_neg (head - tail - 2 ^ 32)) by lia.
    rewrite (to_uint32_high (head - tail - 2 ^ 32 + 2 ^ 32 + size)) by lia.
    rewrite to_uint32_small; lia.
Qed.

Lemma region_size_app (l k : list byte) :
  region_size (l ++ k) = region_size l + region_size k.
Proof. unfold region_size. rewrite length_app. lia. Qed.

Lemma region_size_nonneg (l : list byte) : 0 ≤ region_size l.
Proof. unfold region_size. lia. Qed.

Lemma region_size_nil_inv (l : list byte) : region_size l = 0 → l = [].
Proof. unfold region_size. destruct l; [done | simpl; lia]. Qed.

Lemma length_slice (m : list byte) i n :
  0 ≤ i → 0 ≤ n → i + n ≤ region_size m → region_size (slice m i n) = n.
Proof.
  unfold region_size, slice. intros. rewrite length_take, length_drop. lia.
Qed.

Lemma lookup_slice (m : list byte) i n k :
  0 ≤ i → 0 ≤ k < n → slice m i n !! Z.to_nat k = m !! Z.to_nat (i + k).
Proof.
  intros. unfold slice. rewrite lookup_take_lt by lia.
  rewrite lookup_drop. f_equal. lia.
Qed.

Lemma region_size_blit dest d src s n :
  0 ≤ d → 0 ≤ s → 0 ≤ n → d + n ≤ region_size dest → s + n ≤ region_size src →
  region_size (blit dest d src s n) = region_size dest.
Proof.
  intros. unfold blit. rewrite !region_size_app, length_slice by lia.
  unfold region_size in *. rewrite length_take, length_drop. lia.
Qed.

Lemma lookup_blit dest d src s n k :
  0 ≤ d → 0 ≤ s → 0 ≤ n → d + n ≤ region_size dest → s + n ≤ region_size src →
  0 ≤ k →
  blit dest d src s n !! Z.to_nat k =
    if decide (d ≤ k < d + n) then src !! Z.to_nat (s + (k - d))
    else dest !! Z.to_nat k.
Proof.
  intros Hd Hs Hn Hdest Hsrc Hk. unfold blit.
  assert (Hlt : length (take (Z.to_nat d) dest) = Z.to_nat d).
  { rewrite length_take. unfold region_size in *. lia. }
  assert (Hls : length (slice src s n) = Z.to_nat n).
  { pose proof (length_slice src s n Hs Hn Hsrc) as E.
    unfold region_size in E. lia. }
  destruct (decide (k < d)).
  - rewrite lookup_app_l by lia. rewrite lookup_take_lt by lia.
    case_decide; [lia | done].
  - rewrite lookup_app_r by lia. rewrite Hlt.
    destruct (decide (k < d + n)).
    + rewrite lookup_app_l by lia.
      replace (Z.to_nat k - Z.to_nat d)%nat with (Z.to_nat (k - d)) by lia.
      rewrite lookup_slice by lia. case_decide; [done | lia].
    + rewrite lookup_app_r by lia. rewrite Hls, lookup_drop.
      case_decide; [lia |]. f_equal. lia.
Qed.

Lemma memcpy_Ok dest d src s n :
  0 ≤ d → 0 ≤ s → 0 ≤ n → d + n ≤ region_size dest → s + n ≤ region_size src →
  memcpy dest d src s n = Ok (blit dest d src s n).
Proof. intros. unfold memcpy. rewrite bool_decide_true; [done | lia]. Qed.

Lemma umod_Ok a b : b ≠ 0 → umod a b = Ok (a mod b).
Proof. intros. unfold umod. case_match; [lia | done]. Qed.

Lemma copy_packet_Ok data s :
  valid s → region_size data ≤ tx_buffer_size s →
  copy_packet_into_Tx_buffer_and_transmit data (region_size data) s
  = Ok (enqueue_outcome data s).
Proof.
  intros [Hrs Hts Hrm Htm Hh Ht Hr] Hn.
  pose proof (region_size_nonneg data) as Hn0.
  unfold copy_packet_into_Tx_buffer_and_transmit, enqueue_outcome, preloaded,
    copied, written, first_block, second_block, rolls_over.
  destruct s as [ub pb rb rsz tb tsz hd tl rtl ip rm tm regs]; simpl in *.
  set (n := region_size data) in *.
  rewrite (to_uint32_small (n + hd)) by lia.
  destruct (tsz <? n + hd) eqn:Hroll.
  - apply Z.ltb_lt in Hroll.
    rewrite (to_uint32_small (tsz - hd)) by lia.
    rewrite (to_uint32_small (n + hd - tsz)) by lia.
    rewrite memcpy_Ok by lia. simpl.
    unfold increment_tx_buffer_head_index; simpl.
    rewrite (to_uint32_small (hd + (tsz - hd))) by lia.
    rewrite umod_Ok by lia. simpl.
    replace ((hd + (tsz - hd)) mod tsz) with 0.
    2:{ replace (hd + (tsz - hd)) with tsz by lia. by rewrite Z.mod_same by lia. }
    rewrite memcpy_Ok.
    2-6: try lia.
    2:{ rewrite region_size_blit; lia. }
    simpl. rewrite (to_uint32_small (0 + (n + hd - tsz))) by lia.
    rewrite umod_Ok by lia. simpl.
    replace ((0 + (n + hd - tsz)) mod tsz) with ((hd + n) mod tsz).
    2:{ replace (hd + n) with (0 + (n + hd - tsz) + 1 * tsz) by lia.
        by rewrite Z.mod_add by lia. }
    destruct ip; simpl; [done |].
    unfold increment_tx_buffer_tail_index; simpl.
    rewrite (to_uint32_small (tl + (tsz - hd))) by lia.
    rewrite umod_Ok by lia. done.
  - apply Z.ltb_ge in Hroll.
    rewrite memcpy_Ok by lia. simpl.
    unfold increment_tx_buffer_head_index; simpl.
    rewrite (to_uint32_small (hd + n)) by lia.
    rewrite umod_Ok by lia. simpl.
    destruct ip; simpl; [done |].
    unfold increment_tx_buffer_tail_index; simpl.
    rewrite (to_uint32_small (tl + n)) by lia.
    rewrite umod_Ok by lia. done.
Qed.

(** The call returns the last state of its trace. *)
Lemma copy_packet_trace_last data n s :
  copy_packet_into_Tx_buffer_and_transmit data n s
  = (t ← copy_packet_into_Tx_buffer_and_transmit_trace data n s;
     Ok (default s (last t))).
Proof.
  unfold copy_packet_into_Tx_buffer_and_transmit,
    copy_packet_into_Tx_buffer_and_transmit_trace.
  destruct (memcpy _ _ _ _ _) as [m |]; simpl; [| done].
  destruct (increment_tx_buffer_head_index _ _) as [s2 |]; simpl; [| done].
  destruct (_ <? _); simpl.
  - destruct (memcpy _ _ _ _ _) as [m' |]; simpl; [| done].
    destruct (increment_tx_buffer_head_index _ (set_tx_storage m' s2)) as [s4 |];
      simpl; [| done].
    destruct (pdc_Tx_in_progress s4); simpl; [done |].
    by destruct (increment_tx_buffer_tail_index _ _).
  - destruct (pdc_Tx_in_progress s2); simpl; [done |].
    by destruct (increment_tx_buffer_tail_index _ _).
Qed.





Lemma unsent_spec s :
  valid s →
  get_number_of_unsent_bytes s
  = (tx_buffer_head_index s - tx_buffer_tail_index s + tx_buffer_size s)
      mod tx_buffer_size s.
Proof.
  intros H. unfold get_number_of_unsent_bytes.
  apply wrapped_difference_spec; apply H.
Qed.

Lemma unsent_range s :
  valid s → 0 ≤ get_number_of_unsent_bytes s < tx_buffer_size s.
Proof.
  intros H. rewrite unsent_spec by done. apply Z.mod_pos_bound.
  destruct H; lia.
Qed.

Lemma unsent_contiguous s :
  valid s → tx_buffer_tail_index s ≤ tx_buffer_head_index s →
  get_number_of_unsent_bytes s = tx_buffer_head_index s - tx_buffer_tail_index s.
Proof.
  intros H Hle. rewrite unsent_spec by done. destruct H.
  replace (tx_buffer_head_index s - tx_buffer_tail_index s + tx_buffer_size s)
    with (tx_buffer_head_index s - tx_buffer_tail_index s + 1 * tx_buffer_size s)
    by lia.
  rewrite Z.mod_add by lia. rewrite Z.mod_small; lia.
Qed.

Lemma unsent_wrapped s :
  valid s → tx_buffer_head_index s < tx_buffer_tail_index s →
  get_number_of_unsent_bytes s
  = tx_buffer_head_index s - tx_buffer_tail_index s + tx_buffer_size s.
Proof.
  intros H Hlt. rewrite unsent_spec by done. destruct H.
  rewrite Z.mod_small; lia.
Qed.

Lemma next_run_range s :
  valid s → get_number_of_unsent_bytes s ≠ 0 →
  0 < next_run s ∧ tx_buffer_tail_index s + next_run s ≤ tx_buffer_size s
  ∧ next_run s ≤ get_number_of_unsent_bytes s.
Proof.
  intros H Hne. unfold next_run.
  destruct (tx_buffer_head_index s <? tx_buffer_tail_index s) eqn:Hc.
  - apply Z.ltb_lt in Hc. rewrite unsent_wrapped by done. destruct H. lia.
  - apply Z.ltb_ge in Hc. rewrite unsent_contiguous in * by done.
    destruct H. lia.
Qed.

Lemma valid_tx_indices_in_range s : valid s → tx_indices_in_range s.
Proof. intros []. unfold tx_indices_in_range. lia. Qed.

Lemma irq_transmit_Ok_in_range rxf s :
  tx_indices_in_range s →
  serial_circular_buffer_irq_handler rxf true s
  = Ok (transmit_complete_outcome rxf s).
Proof.
  intros (Hsz & Hhd & Htl).
  unfold serial_circular_buffer_irq_handler, transmit_complete_outcome.
  fold (receive_rearmed rxf s).
  assert (Hu : get_number_of_unsent_bytes (receive_rearmed rxf s)
               = get_number_of_unsent_bytes s) by (by destruct rxf).
  assert (Hh : tx_buffer_head_index (receive_rearmed rxf s)
               = tx_buffer_head_index s) by (by destruct rxf).
  assert (Ht : tx_buffer_tail_index (receive_rearmed rxf s)
               = tx_buffer_tail_index s) by (by destruct rxf).
  assert (Hs : tx_buffer_size (receive_rearmed rxf s)
               = tx_buffer_size s) by (by destruct rxf).
  rewrite Hu, Hh, Ht, Hs.
  destruct (get_number_of_unsent_bytes s =? 0) eqn:Hz; simpl; [done |].
  unfold next_run.
  rewrite (to_uint32_small (tx_buffer_size s - tx_buffer_tail_index s)) by lia.
  set (n := if tx_buffer_head_index s <? tx_buffer_tail_index s
            then tx_buffer_size s - tx_buffer_tail_index s
            else get_number_of_unsent_bytes s).
  assert (Hn : 0 ≤ tx_buffer_tail_index s + n < 2 ^ 32).
  { subst n. case_match eqn:Hc; [lia |]. apply Z.ltb_ge in Hc.
    pose proof (wrapped_difference_contiguous (tx_buffer_head_index s)
                  (tx_buffer_tail_index s) (tx_buffer_size s)) as Hw.
    unfold get_number_of_unsent_bytes. lia. }
  unfold increment_tx_buffer_tail_index.
  replace (tx_buffer_tail_index (initiate_PDC_Tx (tx_buffer_tail_index s) n
                                   (receive_rearmed rxf s)))
    with (tx_buffer_tail_index s) by (by destruct rxf).
  replace (tx_buffer_size (initiate_PDC_Tx (tx_buffer_tail_index s) n
                                   (receive_rearmed rxf s)))
    with (tx_buffer_size s) by (by destruct rxf).
  rewrite to_uint32_small by lia. rewrite umod_Ok by lia. done.
Qed.

Lemma irq_transmit_Ok rxf s :
  valid s →
  serial_circular_buffer_irq_handler rxf true s
  = Ok (transmit_complete_outcome rxf s).
Proof. intros H. by apply irq_transmit_Ok_in_range, valid_tx_indices_in_range. Qed.

Lemma first_block_range data s :
  valid s → region_size data ≤ tx_buffer_size s →
  0 ≤ first_block s (region_size data) ≤ region_size data
  ∧ tx_buffer_head_index s + first_block s (region_size data) ≤ tx_buffer_size s
  ∧ 0 ≤ second_block s (region_size data) ≤ tx_buffer_head_index s
  ∧ first_block s (region_size data) + second_block s (region_size data)
    = region_size data.
Proof.
  intros H Hn. pose proof (region_size_nonneg data).
  unfold first_block, second_block, rolls_over.
  destruct H. case_match eqn:Hc; [apply Z.ltb_lt in Hc | apply Z.ltb_ge in Hc]; lia.
Qed.

Lemma first_block_positive data s :
  valid s → region_size data ≤ tx_buffer_size s → data ≠ [] →
  0 < first_block s (region_size data).
Proof.
  intros H Hn Hne.
  assert (region_size data ≠ 0) by (intros E; by apply region_size_nil_inv in E).
  pose proof (region_size_nonneg data).
  unfold first_block, rolls_over. destruct H. case_match; lia.
Qed.

Lemma region_size_written data s :
  valid s → region_size data ≤ tx_buffer_size s →
  region_size (written data s) = tx_buffer_size s.
Proof.
  intros H Hn. pose proof (first_block_range data s H Hn) as (? & ? & ? & ?).
  destruct H. unfold written.
  case_match; rewrite ?region_size_blit; rewrite ?region_size_blit; lia.
Qed.

(** Every index of the region after the copy: the byte of the packet that
    lands there, or the byte that was there. *)
Lemma lookup_written data s k :
  valid s → region_size data ≤ tx_buffer_size s →
  0 ≤ k < tx_buffer_size s →
  written data s !! Z.to_nat k =
    if decide ((k - tx_buffer_head_index s) mod tx_buffer_size s < region_size data)
    then data !! Z.to_nat ((k - tx_buffer_head_index s) mod tx_buffer_size s)
    else tx_storage s !! Z.to_nat k.
Proof.
  intros H Hn Hk. pose proof (first_block_range data s H Hn) as (Hf1 & Hf2 & Hs1 & Hfs).
  pose proof (region_size_nonneg data) as Hn0.
  destruct H as [_ Hsz _ Hst Hh _ _].
  unfold written, first_block, second_block, rolls_over in *.
  set (h := tx_buffer_head_index s) in *. set (c := tx_buffer_size s) in *.
  set (n := region_size data) in *.
  assert (Hmod : (k - h) mod c = if decide (h ≤ k) then k - h else k - h + c).
  { case_decide.
    - rewrite Z.mod_small; lia.
    - replace (k - h) with (k - h + c + -1 * c) by lia.
      rewrite Z.mod_add by lia. rewrite Z.mod_small; lia. }
  rewrite Hmod.
  destruct (c <? n + h) eqn:Hroll;
    [apply Z.ltb_lt in Hroll | apply Z.ltb_ge in Hroll].
  - rewrite lookup_blit; try lia.
    2:{ rewrite region_size_blit; lia. }
    rewrite lookup_blit by lia.
    repeat case_decide; try lia; try done; f_equal; lia.
  - rewrite lookup_blit by lia.
    repeat case_decide; try lia; try done; f_equal; lia.
Qed.

Lemma valid_receive_rearmed rxf s : valid s → valid (receive_rearmed rxf s).
Proof. intros []. by destruct rxf. Qed.

Lemma valid_enqueue_outcome data s :
  valid s → region_size data ≤ tx_buffer_size s →
  valid (enqueue_outcome data s).
Proof.
  intros H Hn. pose proof (region_size_written data s H Hn) as Hw.
  destruct H as [? Hsz ? ? ? ? ?].
  assert (∀ z, 0 ≤ z mod tx_buffer_size s < tx_buffer_size s)
    by (intros; apply Z.mod_pos_bound; lia).
  unfold enqueue_outcome, preloaded, copied.
  destruct (pdc_Tx_in_progress s); constructor; simpl; auto.
Qed.

Lemma valid_transmit_complete_outcome rxf s :
  valid s → valid (transmit_complete_outcome rxf s).
Proof.
  intros H. pose proof (valid_receive_rearmed rxf s H) as Hr.
  assert (∀ z, 0 ≤ z mod tx_buffer_size s < tx_buffer_size s)
    by (intros; apply Z.mod_pos_bound; destruct H; lia).
  unfold transmit_complete_outcome. destruct H, Hr.
  case_match; destruct rxf; constructor; simpl in *; auto.
Qed.

Lemma get_latest_byte_Ok s :
  valid s →
  ∃ b, rx_storage s !! Z.to_nat (rx_buffer_tail_index s) = Some b ∧
       get_latest_byte s
       = Ok (b, set_rx_buffer_tail_index
                  ((rx_buffer_tail_index s + 1) mod rx_buffer_size s) s).
Proof.
  intros [Hrs _ Hrm _ _ _ Hr].
  destruct (lookup_lt_is_Some_2 (rx_storage s) (Z.to_nat (rx_buffer_tail_index s)))
    as [b Hb].
  { unfold region_size in Hrm. lia. }
  exists b. split; [done |].
  unfold get_latest_byte, load. rewrite bool_decide_true by lia. rewrite Hb. simpl.
  unfold increment_rx_buffer_tail_index.
  rewrite to_uint32_small by lia. rewrite umod_Ok by lia. done.
Qed.

Lemma valid_set_rx_tail i s :
  valid s → 0 ≤ i < rx_buffer_size s → valid (set_rx_buffer_tail_index i s).
Proof. intros [] ?. by constructor. Qed.

Lemma init_Ok clock port rp rr rs tp tr ts baud par s0 :
  to_uint32 (baud * 16) ≠ 0 →
  ∃ s, init clock port rp rr rs tp tr ts baud par s0 = Ok s ∧
       rx_buffer_size s = rs ∧ tx_buffer_size s = ts ∧
       rx_storage s = rr ∧ tx_storage s = tr ∧
       tx_buffer_head_index s = 0 ∧ tx_buffer_tail_index s = 0 ∧
       rx_buffer_tail_index s = 0 ∧ pdc_Tx_in_progress s = false.
Proof.
  intros Hb. unfold init, HAL_UART_INITIAILZE, udiv.
  destruct (to_uint32 (baud * 16) =? 0) eqn:E; [apply Z.eqb_eq in E; lia |].
  simpl. eexists. split; [done |]. simpl. done.
Qed.

(** *** Projections of the outcomes *)

Lemma enqueue_outcome_size data s :
  tx_buffer_size (enqueue_outcome data s) = tx_buffer_size s.
Proof. unfold enqueue_outcome. by destruct (pdc_Tx_in_progress s). Qed.

Lemma enqueue_outcome_head data s :
  tx_buffer_head_index (enqueue_outcome data s)
  = (tx_buffer_head_index s + region_size data) mod tx_buffer_size s.
Proof. unfold enqueue_outcome. by destruct (pdc_Tx_in_progress s). Qed.

Lemma enqueue_outcome_storage data s :
  tx_storage (enqueue_outcome data s) = written data s.
Proof. unfold enqueue_outcome. by destruct (pdc_Tx_in_progress s). Qed.

Lemma enqueue_outcome_busy data s :
  pdc_Tx_in_progress (enqueue_outcome data s) = true.
Proof. unfold enqueue_outcome. by destruct (pdc_Tx_in_progress s) eqn:E. Qed.

Lemma handed_initiate index n s :
  handed_to_hardware (initiate_PDC_Tx index n s)
  = handed_to_hardware s ++ slice (tx_storage s) index n.
Proof.
  unfold handed_to_hardware, initiate_PDC_Tx. simpl.
  rewrite fmap_app, concat_app. simpl. by rewrite app_nil_r.
Qed.

Lemma handed_receive_rearmed rxf s :
  handed_to_hardware (receive_rearmed rxf s) = handed_to_hardware s.
Proof. by destruct rxf. Qed.

(** *** Modular arithmetic on indices *)

Lemma mod_difference x y c :
  0 < c → (x mod c - y mod c + c) mod c = (x - y) mod c.
Proof.
  intros. replace (x mod c - y mod c + c) with (x mod c - y mod c + 1 * c) by lia.
  rewrite Z.mod_add by lia. by rewrite <- Zminus_mod.
Qed.

Lemma mod_advance x n c : 0 < c → (x mod c + n) mod c = (x + n) mod c.
Proof. intros. by rewrite Zplus_mod_idemp_l. Qed.

Lemma mod_no_wrap x n c :
  0 < c → 0 ≤ n → x mod c + n < c → (x + n) mod c = x mod c + n.
Proof.
  intros. rewrite <- mod_advance by done.
  pose proof (Z.mod_pos_bound x c). rewrite Z.mod_small; lia.
Qed.

(** *** Tracked states *)

(** The first block armed by an enqueue is the head of the packet. *)
Lemma slice_written data s :
  valid s → region_size data ≤ tx_buffer_size s →
  slice (written data s) (tx_buffer_head_index s) (first_block s (region_size data))
  = take (Z.to_nat (first_block s (region_size data))) data.
Proof.
  intros H Hn. pose proof (first_block_range data s H Hn) as (Hf1 & Hf2 & Hs1 & Hfs).
  assert (Hh : 0 ≤ tx_buffer_head_index s < tx_buffer_size s) by apply H.
  set (f := first_block s (region_size data)) in *.
  apply list_eq. intros i.
  destruct (decide (i < Z.to_nat f)%nat) as [Hi | Hi].
  - rewrite lookup_take_lt by done.
    replace i with (Z.to_nat (Z.of_nat i)) by lia.
    rewrite lookup_slice by lia.
    rewrite lookup_written by (done || lia).
    replace (tx_buffer_head_index s + Z.of_nat i - tx_buffer_head_index s)
      with (Z.of_nat i) by lia.
    rewrite Z.mod_small by lia. case_decide; [done | lia].
  - rewrite lookup_take_ge by lia. unfold slice. by rewrite lookup_take_ge by lia.
Qed.

Lemma tracks_start s :
  valid s → idle s →
  tracks (handed_to_hardware s) (tx_buffer_head_index s) [] 0 s.
Proof.
  intros H [Hi Heq].
  assert (Hh : 0 ≤ tx_buffer_head_index s < tx_buffer_size s) by apply H.
  change (region_size []) with 0.
  constructor; change (region_size []) with 0; try done; try lia.
  - rewrite Z.add_0_r, Z.mod_small; lia.
  - rewrite Z.add_0_r, Z.mod_small; lia.
  - by rewrite app_nil_r.
  - congruence.
Qed.

(** The steps of a trace keep a state tracked.  [before] and [origin] are
    fixed by the idle state the trace started from. *)
Section Tracking.

Context (before : list byte) (origin : Z).

Lemma tracks_unsent queued armed s :
  tracks before origin queued armed s →
  get_number_of_unsent_bytes s = region_size queued - armed.
Proof.
  intros T. rewrite unsent_spec by apply T.
  rewrite (tracks_head _ _ _ _ _ T), (tracks_tail _ _ _ _ _ T).
  pose proof (tracks_armed _ _ _ _ _ T). pose proof (tracks_capacity _ _ _ _ _ T).
  assert (0 < tx_buffer_size s) by (destruct T as [[] ]; lia).
  rewrite mod_difference by done.
  replace (origin + region_size queued - (origin + armed))
    with (region_size queued - armed) by lia.
  destruct (pdc_Tx_in_progress s) eqn:E.
  - pose proof (tracks_busy _ _ _ _ _ T E). rewrite Z.mod_small; lia.
  - pose proof (tracks_idle _ _ _ _ _ T E). rewrite Z.mod_small; lia.
Qed.

Lemma tracks_enqueue queued armed s data :
  tracks before origin queued armed s →
  data ≠ [] →
  region_size queued + region_size data ≤ tx_buffer_size s →
  ∃ armed', tracks before origin (queued ++ data) armed' (enqueue_outcome data s).
Proof.
  intros T Hne Hcap.
  pose proof (tracks_valid _ _ _ _ _ T) as H.
  pose proof (tracks_armed _ _ _ _ _ T) as Ha.
  pose proof (region_size_nonneg queued) as Hq0.
  pose proof (region_size_nonneg data) as Hd0.
  assert (Hn : region_size data ≤ tx_buffer_size s) by lia.
  assert (Hc : 0 < tx_buffer_size s) by (destruct H; lia).
  pose proof (first_block_range data s H Hn) as (Hf1 & Hf2 & Hs1 & Hfs).
  pose proof (first_block_positive data s H Hn Hne) as Hfp.
  assert (Hstore : ∀ k, 0 ≤ k < region_size (queued ++ data) →
    written data s !! Z.to_nat ((origin + k) mod tx_buffer_size s)
    = (queued ++ data) !! Z.to_nat k).
  { intros k Hk. rewrite region_size_app in Hk.
    rewrite lookup_written; [| done | done | by apply Z.mod_pos_bound].
    rewrite (tracks_head _ _ _ _ _ T).
    rewrite <- Zminus_mod.
    replace (origin + k - (origin + region_size queued))
      with (k - region_size queued) by lia.
    destruct (decide (k < region_size queued)).
    - replace (k - region_size queued)
        with (k - region_size queued + tx_buffer_size s + -1 * tx_buffer_size s) by lia.
      rewrite Z.mod_add by lia. rewrite Z.mod_small by lia.
      case_decide; [lia |].
      rewrite (tracks_storage _ _ _ _ _ T) by lia.
      rewrite lookup_app_l; [done | unfold region_size in *; lia].
    - rewrite Z.mod_small by lia. case_decide; [| lia].
      rewrite lookup_app_r by (unfold region_size in *; lia).
      f_equal. unfold region_size. lia. }
  destruct (pdc_Tx_in_progress s) eqn:Hip.
  - exists armed.
    pose proof (valid_enqueue_outcome data s H Hn) as Hv.
    pose proof (enqueue_outcome_head data s) as Hhd.
    pose proof (enqueue_outcome_storage data s) as Hst.
    unfold enqueue_outcome in *. rewrite Hip in *.
    constructor.
    + done.
    + rewrite region_size_app. lia.
    + rewrite region_size_app. simpl. lia.
    + rewrite Hhd, (tracks_head _ _ _ _ _ T), mod_advance, region_size_app by done.
      f_equal. lia.
    + simpl. apply T.
    + change (handed_to_hardware (copied data s)) with (handed_to_hardware s).
      rewrite (tracks_hardware _ _ _ _ _ T). f_equal.
      rewrite take_app_le; [done | unfold region_size in *; lia].
    + simpl. congruence.
    + intros _. by apply (tracks_busy _ _ _ _ _ T).
    + intros k Hk. rewrite Hst. simpl. by apply Hstore.
  - exists (region_size queued + first_block s (region_size data)).
    pose proof (tracks_idle _ _ _ _ _ T Hip) as Heq. subst armed.
    pose proof (valid_enqueue_outcome data s H Hn) as Hv.
    pose proof (enqueue_outcome_head data s) as Hhd.
    pose proof (enqueue_outcome_storage data s) as Hst.
    unfold enqueue_outcome in *. rewrite Hip in *.
    constructor.
    + done.
    + rewrite region_size_app. lia.
    + rewrite region_size_app. simpl. lia.
    + rewrite Hhd, (tracks_head _ _ _ _ _ T), mod_advance, region_size_app by done.
      f_equal. lia.
    + simpl. rewrite (tracks_tail _ _ _ _ _ T), mod_advance by done. f_equal. lia.
    + rewrite handed_initiate.
      change (handed_to_hardware (preloaded data s)) with (handed_to_hardware s).
      change (tx_storage (preloaded data s)) with (written data s).
      rewrite slice_written by done.
      rewrite (tracks_hardware _ _ _ _ _ T), <- app_assoc. f_equal.
      set (f := first_block s (region_size data)) in *.
      rewrite (take_ge queued) by (unfold region_size; lia).
      rewrite take_app_ge by (unfold region_size; lia).
      f_equal. f_equal. unfold region_size. lia.
    + simpl. congruence.
    + simpl. lia.
    + intros k Hk. rewrite Hst. simpl. by apply Hstore.
Qed.

Lemma tracks_receive_rearmed queued armed s rxf :
  tracks before origin queued armed s →
  tracks before origin queued armed (receive_rearmed rxf s).
Proof.
  intros T. pose proof (valid_receive_rearmed rxf s (tracks_valid _ _ _ _ _ T)).
  destruct T. destruct rxf; [| by constructor].
  constructor; simpl; done.
Qed.

(** The run armed by the handler is the next stretch of the queued bytes. *)
Lemma slice_pending queued armed s n :
  tracks before origin queued armed s →
  0 ≤ n → armed + n ≤ region_size queued →
  tx_buffer_tail_index s + n ≤ tx_buffer_size s →
  slice (tx_storage s) (tx_buffer_tail_index s) n
  = take (Z.to_nat n) (drop (Z.to_nat armed) queued).
Proof.
  intros T Hn Han Htn.
  pose proof (tracks_armed _ _ _ _ _ T) as Ha.
  assert (Hc : 0 < tx_buffer_size s) by (destruct T as [[] ]; lia).
  assert (Ht : 0 ≤ tx_buffer_tail_index s) by (destruct T as [[] ]; lia).
  apply list_eq. intros i.
  destruct (decide (i < Z.to_nat n)%nat) as [Hi | Hi].
  - rewrite lookup_take_lt by done. rewrite lookup_drop.
    replace i with (Z.to_nat (Z.of_nat i)) at 1 by lia.
    rewrite lookup_slice by lia.
    replace (tx_buffer_tail_index s + Z.of_nat i)
      with ((origin + (armed + Z.of_nat i)) mod tx_buffer_size s).
    + rewrite (tracks_storage _ _ _ _ _ T) by lia. f_equal. lia.
    + rewrite (tracks_tail _ _ _ _ _ T) in *.
      rewrite Z.add_assoc. apply mod_no_wrap; lia.
  - rewrite lookup_take_ge by lia. unfold slice. by rewrite lookup_take_ge by lia.
Qed.

Lemma transmit_complete_after_rearm rxf s :
  transmit_complete_outcome rxf s
  = transmit_complete_outcome false (receive_rearmed rxf s).
Proof. by destruct rxf. Qed.

Lemma tracks_transmit_complete_only queued armed s :
  tracks before origin queued armed s →
  ∃ armed', tracks before origin queued armed' (transmit_complete_outcome false s).
Proof.
  intros T.
  pose proof (tracks_valid _ _ _ _ _ T) as H.
  pose proof (tracks_armed _ _ _ _ _ T) as Ha.
  pose proof (tracks_capacity _ _ _ _ _ T) as Hcap.
  pose proof (tracks_unsent _ _ _ T) as Hu.
  pose proof (valid_transmit_complete_outcome false s H) as Hv.
  assert (Hc : 0 < tx_buffer_size s) by (destruct H; lia).
  unfold transmit_complete_outcome, receive_rearmed in *.
  destruct (get_number_of_unsent_bytes s =? 0) eqn:Hz.
  - apply Z.eqb_eq in Hz. exists armed. destruct T.
    constructor; simpl; try done. intros _. lia.
  - apply Z.eqb_neq in Hz.
    pose proof (next_run_range s H Hz) as (Hn1 & Hn2 & Hn3).
    set (n := next_run s) in *. exists (armed + n).
    assert (Hsl : slice (tx_storage s) (tx_buffer_tail_index s) n
                  = take (Z.to_nat n) (drop (Z.to_nat armed) queued)).
    { eapply slice_pending; [done | lia..]. }
    constructor.
    + done.
    + lia.
    + done.
    + apply T.
    + simpl. rewrite (tracks_tail _ _ _ _ _ T), mod_advance by done.
      f_equal. lia.
    + change (handed_to_hardware (set_pdc_Tx_in_progress true ?x))
        with (handed_to_hardware x).
      change (handed_to_hardware (set_tx_buffer_tail_index ?i ?x))
        with (handed_to_hardware x).
      rewrite handed_initiate, Hsl.
      rewrite (tracks_hardware _ _ _ _ _ T), <- app_assoc. f_equal.
      rewrite take_take_drop. f_equal. lia.
    + simpl. congruence.
    + intros _. lia.
    + apply T.
Qed.

Lemma tracks_transmit_complete queued armed s rxf :
  tracks before origin queued armed s →
  ∃ armed', tracks before origin queued armed' (transmit_complete_outcome rxf s).
Proof.
  intros T. rewrite transmit_complete_after_rearm.
  eapply tracks_transmit_complete_only, tracks_receive_rearmed, T.
Qed.

Lemma tracks_handle queued armed s e :
  tracks before origin queued armed s →
  nonempty_packet e →
  region_size queued + region_size (enqueued [e]) ≤ tx_buffer_size s →
  ∃ s' armed',
    handle e s = Ok s' ∧
    tx_buffer_size s' = tx_buffer_size s ∧
    tracks before origin (queued ++ enqueued [e]) armed' s'.
Proof.
  intros T Hne Hcap. pose proof (tracks_valid _ _ _ _ _ T) as H.
  destruct e as [data | rxf txe]; simpl in *.
  - rewrite app_nil_r in *.
    pose proof (region_size_nonneg queued).
    destruct (tracks_enqueue _ _ _ data T Hne Hcap) as [a' T'].
    exists (enqueue_outcome data s), a'.
    split; [apply copy_packet_Ok; [done | lia] |].
    split; [apply enqueue_outcome_size | done].
  - rewrite app_nil_r. destruct txe.
    + destruct (tracks_transmit_complete _ _ _ rxf T) as [a' T'].
      exists (transmit_complete_outcome rxf s), a'.
      split; [by apply irq_transmit_Ok |]. split; [| done].
      unfold transmit_complete_outcome. case_match; by destruct rxf.
    + exists (receive_rearmed rxf s), armed.
      split; [done |]. split; [by destruct rxf |].
      by apply tracks_receive_rearmed.
Qed.

Lemma tracks_handle_all l : ∀ queued armed s,
  tracks before origin queued armed s →
  Forall nonempty_packet l →
  region_size queued + region_size (enqueued l) ≤ tx_buffer_size s →
  ∃ s' armed',
    handle_all l s = Ok s' ∧
    tracks before origin (queued ++ enqueued l) armed' s'.
Proof.
  induction l as [| e l IH]; intros queued armed s T Hne Hcap.
  - exists s, armed. simpl. by rewrite app_nil_r.
  - apply Forall_cons in Hne as [He Hl].
    assert (Hsplit : enqueued (e :: l) = enqueued [e] ++ enqueued l).
    { destruct e; simpl; by rewrite ?app_nil_r. }
    rewrite Hsplit, region_size_app in *.
    pose proof (region_size_nonneg (enqueued l)).
    destruct (tracks_handle _ _ _ e T He) as (s1 & a1 & Hs1 & Hsz & T1); [lia |].
    destruct (IH _ _ _ T1 Hl) as (s2 & a2 & Hs2 & T2).
    { rewrite region_size_app, Hsz. lia. }
    exists s2, a2. simpl. rewrite Hs1. simpl. split; [done |].
    by rewrite app_assoc.
Qed.

End Tracking.

(** *** Serving interrupts until the transmitter is idle *)

Lemma interrupts_to_idle_decreases s :
  valid s → pdc_Tx_in_progress s = true →
  (interrupts_to_idle (transmit_complete_outcome false s) < interrupts_to_idle s)%nat.
Proof.
  intros H Hip.
  assert (Hc : 0 < tx_buffer_size s ≤ 2 ^ 31) by apply H.
  assert (Hh : 0 ≤ tx_buffer_head_index s < tx_buffer_size s) by apply H.
  assert (Ht : 0 ≤ tx_buffer_tail_index s < tx_buffer_size s) by apply H.
  unfold interrupts_to_idle at 2. rewrite Hip.
  unfold transmit_complete_outcome, receive_rearmed.
  destruct (get_number_of_unsent_bytes s =? 0) eqn:Hz.
  { unfold interrupts_to_idle. simpl. lia. }
  apply Z.eqb_neq in Hz.
  unfold interrupts_to_idle, get_number_of_unsent_bytes, next_run. simpl.
  destruct (tx_buffer_head_index s <? tx_buffer_tail_index s) eqn:Hlt.
  - replace (tx_buffer_tail_index s + (tx_buffer_size s - tx_buffer_tail_index s))
      with (tx_buffer_size s) by lia.
    rewrite Z.mod_same by lia.
    destruct (tx_buffer_head_index s <? 0) eqn:Hneg; [apply Z.ltb_lt in Hneg; lia |].
    case_match; lia.
  - apply Z.ltb_ge in Hlt. rewrite unsent_contiguous by done.
    replace (tx_buffer_tail_index s
             + (tx_buffer_head_index s - tx_buffer_tail_index s))
      with (tx_buffer_head_index s) by lia.
    rewrite Z.mod_small by lia.
    assert (Hzero : wrapped_difference (tx_buffer_head_index s)
                      (tx_buffer_head_index s) (tx_buffer_size s) = 0)
      by (by apply wrapped_difference_zero).
    rewrite Hzero. simpl. lia.
Qed.

Lemma interrupts_to_idle_bound s : (interrupts_to_idle s ≤ 3)%nat.
Proof. unfold interrupts_to_idle. repeat case_match; lia. Qed.

Lemma drive_until_idle_S fuel s :
  drive_until_idle (S fuel) s =
    if pdc_Tx_in_progress s then
      match serial_circular_buffer_irq_handler false true s with
      | Ok s => drive_until_idle fuel s
      | Fault f => Some (Fault f)
      end
    else Some (Ok s).
Proof. done. Qed.

Lemma drive_until_idle_terminates n : ∀ s,
  valid s → (interrupts_to_idle s ≤ n)%nat →
  ∃ s', ∀ fuel, (n < fuel)%nat → drive_until_idle fuel s = Some (Ok s').
Proof.
  induction n as [| n IH]; intros s H Hr.
  - exists s. intros [| fuel] Hf; [lia |]. rewrite drive_until_idle_S.
    unfold interrupts_to_idle in Hr.
    destruct (pdc_Tx_in_progress s); [repeat case_match; lia | done].
  - destruct (pdc_Tx_in_progress s) eqn:Hip.
    + pose proof (interrupts_to_idle_decreases s H Hip) as Hd.
      destruct (IH (transmit_complete_outcome false s)) as [s' Hs'].
      { by apply valid_transmit_complete_outcome. }
      { lia. }
      exists s'. intros [| fuel] Hf; [lia |].
      rewrite drive_until_idle_S, Hip, irq_transmit_Ok by done. apply Hs'. lia.
    + exists s. intros [| fuel] Hf; [lia |].
      by rewrite drive_until_idle_S, Hip.
Qed.

Lemma drive_until_idle_invariant (P : serial_circular_buffer → Prop) :
  (∀ s, P s → valid s) →
  (∀ s, P s → P (transmit_complete_outcome false s)) →
  ∀ fuel s s',
    P s → drive_until_idle fuel s = Some (Ok s') →
    P s' ∧ pdc_Tx_in_progress s' = false.
Proof.
  intros Hvalid Hstep. induction fuel as [| fuel IH]; intros s s' HP Hrun.
  - done.
  - rewrite drive_until_idle_S in Hrun.
    destruct (pdc_Tx_in_progress s) eqn:Hip.
    + rewrite irq_transmit_Ok in Hrun by auto. eapply IH; [| done]. auto.
    + by simplify_eq.
Qed.

Lemma drained_when_idle_step s :
  drained_when_idle s → drained_when_idle (transmit_complete_outcome false s).
Proof.
  intros [H _]. split; [by apply valid_transmit_complete_outcome |].
  unfold transmit_complete_outcome, receive_rearmed.
  destruct (get_number_of_unsent_bytes s =? 0) eqn:Hz; simpl; [| done].
  intros _. apply Z.eqb_eq in Hz. symmetry.
  apply (wrapped_difference_zero _ _ (tx_buffer_size s)); try apply H. done.
Qed.


(** ** The interrupt coordinator *)

(** C9.  The receive-full branch of the handler only re-arms the receive
    channel with the base address and the size of the receive region: the
    receive tail, the transmit head, tail and in-progress flag, both
    regions and every other register are as before, whatever the hardware
    counter was; the branch acts the same way whether or not the
    transmit-empty condition is signalled with it; and invoking it a second
    time changes nothing more. *)
Theorem receive_full_only_rearms :
  ∀ s : serial_circular_buffer,
    let s' := set_registers
                (set_receive_channel (rx_buffer s) (rx_buffer_size s) (registers s)) s in
    serial_circular_buffer_irq_handler true false s = Ok s'
    ∧ (∀ txe, serial_circular_buffer_irq_handler true txe s
              = serial_circular_buffer_irq_handler false txe s')
    ∧ PERIPH_RPR (registers s') = rx_buffer s
    ∧ PERIPH_RCR (registers s') = rx_buffer_size s
    ∧ rx_buffer_tail_index s' = rx_buffer_tail_index s
    ∧ tx_buffer_head_index s' = tx_buffer_head_index s
    ∧ tx_buffer_tail_index s' = tx_buffer_tail_index s
    ∧ pdc_Tx_in_progress s' = pdc_Tx_in_progress s
    ∧ tx_storage s' = tx_storage s
    ∧ rx_storage s' = rx_storage s
    ∧ PERIPH_TPR (registers s') = PERIPH_TPR (registers s)
    ∧ PERIPH_TCR (registers s') = PERIPH_TCR (registers s)
    ∧ tx_transfers (registers s') = tx_transfers (registers s)
    ∧ UART_IMR_TXBUFE (registers s') = UART_IMR_TXBUFE (registers s)
    ∧ UART_IMR_RXBUFF (registers s') = UART_IMR_RXBUFF (registers s)
    ∧ serial_circular_buffer_irq_handler true false s' = Ok s'.
Proof.
  intros s s'. repeat split; try done.
Qed.




(** ** The index arithmetic *)

(** C6, as stated, fails: with a capacity of [2 ^ 31 + 1], head [2 ^ 31]
    and tail [0] both lie in [[0, capacity)], yet the signed 32-bit
    difference is negative and the unsent count comes out as [1]
    instead of [2 ^ 31]. *)
Lemma unsent_count_beyond_int32 :
  ¬ (∀ s : serial_circular_buffer,
       0 ≤ tx_buffer_head_index s < tx_buffer_size s →
       0 ≤ tx_buffer_tail_index s < tx_buffer_size s →
       get_number_of_unsent_bytes s
       = (tx_buffer_head_index s - tx_buffer_tail_index s + tx_buffer_size s)
           mod tx_buffer_size s).
Proof.
  intros Hclaim.
  specialize (Hclaim (indices_only (2 ^ 31 + 1) (2 ^ 31) 0)).
  assert (Hcode : get_number_of_unsent_bytes (indices_only (2 ^ 31 + 1) (2 ^ 31) 0)
                  = 1) by (by vm_compute).
  rewrite Hcode in Hclaim. simpl in Hclaim.
  assert (1 = (2 ^ 31 - 0 + (2 ^ 31 + 1)) mod (2 ^ 31 + 1)) as Habs
    by (apply Hclaim; lia).
  vm_compute in Habs. discriminate.
Qed.

(** C6, amended.  For a capacity of at most [2 ^ 31] and every head and
    tail in [[0, capacity)], head below tail included, the unread count is
    [(head - tail + rx_capacity) mod rx_capacity] for the head derived from
    the receive counter, the unsent count is
    [(head - tail + tx_capacity) mod tx_capacity], and both lie in
    [[0, capacity)]. *)
Theorem byte_counts_within_int32 :
  ∀ s : serial_circular_buffer,
    (0 < rx_buffer_size s ≤ 2 ^ 31 →
     0 ≤ get_rx_buffer_head_index s < rx_buffer_size s →
     0 ≤ rx_buffer_tail_index s < rx_buffer_size s →
     get_number_of_unread_bytes s
     = (get_rx_buffer_head_index s - rx_buffer_tail_index s + rx_buffer_size s)
         mod rx_buffer_size s
     ∧ 0 ≤ get_number_of_unread_bytes s < rx_buffer_size s)
    ∧ (0 < tx_buffer_size s ≤ 2 ^ 31 →
       0 ≤ tx_buffer_head_index s < tx_buffer_size s →
       0 ≤ tx_buffer_tail_index s < tx_buffer_size s →
       get_number_of_unsent_bytes s
       = (tx_buffer_head_index s - tx_buffer_tail_index s + tx_buffer_size s)
           mod tx_buffer_size s
       ∧ 0 ≤ get_number_of_unsent_bytes s < tx_buffer_size s).
Proof.
  intros s. split; intros Hc Hh Ht.
  - unfold get_number_of_unread_bytes.
    rewrite wrapped_difference_spec by done.
    split; [done | apply Z.mod_pos_bound; lia].
  - unfold get_number_of_unsent_bytes.
    rewrite wrapped_difference_spec by done.
    split; [done | apply Z.mod_pos_bound; lia].
Qed.

(** The third scenario of the specification (capacity 4, the receive
    counter at 1, tail 1: two unread bytes), and a wrapped transmit pair. *)
Lemma byte_counts_scenario :
  let s := set_registers (set_receive_channel 0x20000000 1 reset_peripheral)
             (set_rx_buffer_tail_index 1
                (set_tx_buffer_tail_index 6 (idle_driver 8 3))) in
  get_number_of_unread_bytes s = 2 ∧ get_number_of_unsent_bytes s = 5.
Proof.
  intros s.
  destruct (byte_counts_within_int32 s) as [Hrx Htx].
  split.
  - destruct Hrx as [-> _]; [vm_compute; split; congruence
                            | vm_compute; split; congruence
                            | vm_compute; split; congruence | done].
  - destruct Htx as [-> _]; [vm_compute; split; congruence
                            | vm_compute; split; congruence
                            | vm_compute; split; congruence | done].
Defined.

(** ** The transmit manager *)

(** C4, as stated, fails: an empty packet enqueued on an idle driver sets
    the in-progress flag, arms a transfer of zero bytes and enables the
    transmit-empty interrupt. *)
Lemma empty_packet_on_idle_driver_arms :
  ∃ s', copy_packet_into_Tx_buffer_and_transmit [] 0 (idle_driver 8 0) = Ok s'
    ∧ s' ≠ idle_driver 8 0
    ∧ pdc_Tx_in_progress (idle_driver 8 0) = false
    ∧ pdc_Tx_in_progress s' = true
    ∧ UART_IMR_TXBUFE (registers (idle_driver 8 0)) = false
    ∧ UART_IMR_TXBUFE (registers s') = true
    ∧ tx_transfers (registers (idle_driver 8 0)) = []
    ∧ tx_transfers (registers s')
      = [ {| transfer_address := 0x20001000; transfer_count := 0;
             transfer_bytes := [] |} ].
Proof.
  eexists. split; [by vm_compute |]. repeat split; try done.
Qed.

(** C4, amended.  In a state whose transmit indices lie inside a 32-bit
    capacity and whose head lies inside the transmit region, a call with
    length 0 copies nothing and leaves head, tail and the contents of the
    transmit region as they were.  While a transfer is in progress it
    changes nothing at all.  On an idle driver it sets the in-progress
    flag, arms a transfer of zero bytes at the head and enables the
    transmit-empty interrupt. *)
Theorem empty_packet :
  ∀ (data : list byte) (s : serial_circular_buffer),
    tx_indices_in_range s →
    tx_buffer_head_index s ≤ region_size (tx_storage s) →
    ∃ s', copy_packet_into_Tx_buffer_and_transmit data 0 s = Ok s'
      ∧ tx_buffer_head_index s' = tx_buffer_head_index s
      ∧ tx_buffer_tail_index s' = tx_buffer_tail_index s
      ∧ tx_storage s' = tx_storage s
      ∧ (pdc_Tx_in_progress s = true → s' = s)
      ∧ (pdc_Tx_in_progress s = false →
           s' = initiate_PDC_Tx (tx_buffer_head_index s) 0
                  (set_pdc_Tx_in_progress true s)).
Proof.
  intros data s (Hts & Hh & Ht) Htm.
  pose proof (region_size_nonneg data) as Hd.
  unfold copy_packet_into_Tx_buffer_and_transmit.
  destruct s as [ub pb rb rsz tb tsz hd tl rtl ip rm tm regs]; simpl in *.
  rewrite (to_uint32_small (0 + hd)) by lia.
  destruct (tsz <? 0 + hd) eqn:Hroll; [apply Z.ltb_lt in Hroll; lia |].
  rewrite memcpy_Ok by lia. simpl.
  assert (Hblit : blit tm hd data 0 0 = tm).
  { unfold blit, slice. simpl. rewrite Z.add_0_r. apply take_drop. }
  rewrite Hblit.
  unfold increment_tx_buffer_head_index; simpl.
  rewrite (to_uint32_small (hd + 0)) by lia. rewrite umod_Ok by lia. simpl.
  rewrite Z.add_0_r, Z.mod_small by lia.
  destruct ip; simpl.
  - eexists. split; [done |]. repeat split; try done.
  - unfold increment_tx_buffer_tail_index; simpl.
    rewrite (to_uint32_small (tl + 0)) by lia. rewrite umod_Ok by lia. simpl.
    rewrite Z.add_0_r, Z.mod_small by lia.
    eexists. split; [done |]. repeat split; try done.
Qed.

(** An empty packet while a transfer is in progress: capacity 8, head and
    tail at 5. *)
Lemma empty_packet_scenario :
  let s := set_pdc_Tx_in_progress true (idle_driver 8 5) in
  tx_indices_in_range s ∧
  tx_buffer_head_index s ≤ region_size (tx_storage s) ∧
  copy_packet_into_Tx_buffer_and_transmit [] 0 s = Ok s.
Proof.
  intros s.
  assert (H : tx_indices_in_range s) by (vm_compute; repeat split; congruence).
  assert (Hm : tx_buffer_head_index s ≤ region_size (tx_storage s))
    by (vm_compute; congruence).
  split; [done |]. split; [done |].
  destruct (empty_packet [] s H Hm) as (s' & Hs' & _ & _ & _ & Hbusy & _).
  rewrite Hs'. f_equal. by apply Hbusy.
Defined.







(** ** The invariant of the transmit buffer *)

Lemma unsent_after_copy s s' :
  pdc_Tx_in_progress s' = true ∨
  (tx_buffer_head_index s' = tx_buffer_head_index s ∧
   tx_buffer_tail_index s' = tx_buffer_tail_index s ∧
   tx_buffer_size s' = tx_buffer_size s ∧
   pdc_Tx_in_progress s' = pdc_Tx_in_progress s) →
  idle_implies_drained s → idle_implies_drained s'.
Proof.
  unfold idle_implies_drained, get_number_of_unsent_bytes.
  intros [Hb | (-> & -> & -> & ->)] Hi; [congruence | done].
Qed.

Lemma copy_packet_busy data n s s' :
  copy_packet_into_Tx_buffer_and_transmit data n s = Ok s' →
  pdc_Tx_in_progress s' = true.
Proof.
  unfold copy_packet_into_Tx_buffer_and_transmit, increment_tx_buffer_head_index,
    increment_tx_buffer_tail_index, mbind, result_bind.
  intros Hcall. repeat case_match; simplify_eq; done.
Qed.

Lemma irq_handler_keeps_invariant rxf txe s s' :
  serial_circular_buffer_irq_handler rxf txe s = Ok s' →
  idle_implies_drained s → idle_implies_drained s'.
Proof.
  unfold serial_circular_buffer_irq_handler. fold (receive_rearmed rxf s).
  destruct txe.
  - destruct (get_number_of_unsent_bytes (receive_rearmed rxf s) =? 0) eqn:Hz; simpl.
    + intros [= <-] _ _. apply Z.eqb_eq in Hz.
      unfold get_number_of_unsent_bytes in *. by destruct rxf.
    + unfold increment_tx_buffer_tail_index.
      destruct (umod _ _) as [i |]; simpl; [| done].
      intros [= <-]. apply unsent_after_copy. by left.
  - intros [= <-]. apply unsent_after_copy. right. by destruct rxf.
Qed.

(** C5.  In every state a driver object can reach once [init] has
    returned, through any calls of the transmit manager, the interrupt
    handler under either condition and the byte reader, an idle
    transmitter has zero unsent bytes. *)
Theorem idle_implies_drained_invariant :
  ∀ s : serial_circular_buffer, reachable s → idle_implies_drained s.
Proof.
  induction 1 as [clock port rp rr rs tp tr ts baud par s0 s Hinit
                 | data n s s' _ IH Hcall
                 | rxf txe s s' _ IH Hcall
                 | b s s' _ IH Hcall].
  - unfold init in Hinit.
    destruct (HAL_UART_INITIAILZE _ _ _ _) as [p |]; simpl in Hinit; [| done].
    injection Hinit as <-. intros _. done.
  - eapply unsent_after_copy; [| done]. left. by eapply copy_packet_busy.
  - by eapply irq_handler_keeps_invariant.
  - eapply unsent_after_copy; [| done]. right.
    unfold get_latest_byte in Hcall.
    destruct (load _ _) as [b' |]; simpl in Hcall; [| done].
    unfold increment_rx_buffer_tail_index in Hcall.
    destruct (umod _ _) as [i |]; simpl in Hcall; [| done].
    by injection Hcall as <- <-.
Qed.

(** A driver initialised on port 0 with eight-byte regions, after a
    five-byte packet and two transmit-complete interrupts. *)
Lemma idle_implies_drained_after_a_packet :
  ∃ s0 s1 s2 s3,
    init 120000000 UART_PORT_0
      0x20000000 (replicate 8 "000"%byte) 8
      0x20001000 (replicate 8 "000"%byte) 8
      115200 UART_PARITY_NONE zero_initialized = Ok s0
    ∧ copy_packet_into_Tx_buffer_and_transmit
        ["A"; "B"; "C"; "D"; "E"]%byte 5 s0 = Ok s1
    ∧ serial_circular_buffer_irq_handler false true s1 = Ok s2
    ∧ serial_circular_buffer_irq_handler false true s2 = Ok s3
    ∧ reachable s3
    ∧ pdc_Tx_in_progress s3 = false
    ∧ get_number_of_unsent_bytes s3 = 0.
Proof.
  do 4 eexists.
  split; [by vm_compute |]. split; [by vm_compute |].
  split; [by vm_compute |]. split; [by vm_compute |].
  match goal with |- reachable ?s ∧ _ =>
    assert (Hr : reachable s)
  end.
  { eapply reachable_interrupt with (rxf := false) (txe := true);
      [eapply reachable_interrupt with (rxf := false) (txe := true);
        [eapply reachable_enqueue
           with (data := ["A"; "B"; "C"; "D"; "E"]%byte) (n := 5);
          [eapply reachable_init
             with (clock := 120000000) (port := UART_PORT_0)
                  (rp := 0x20000000) (rr := replicate 8 "000"%byte) (rs := 8)
                  (tp := 0x20001000) (tr := replicate 8 "000"%byte) (ts := 8)
                  (baud := 115200) (par := UART_PARITY_NONE)
                  (s0 := zero_initialized);
           by vm_compute
          | by vm_compute]
        | by vm_compute]
      | by vm_compute]. }
  split; [done |]. split; [done |].
  by apply (idle_implies_drained_invariant _ Hr).
Defined.


(** ** Memory safety *)

Lemma init_valid clock port rp rr rs tp tr ts baud par s0 :
  to_uint32 (baud * 16) ≠ 0 →
  0 < rs ≤ 2 ^ 31 → 0 < ts ≤ 2 ^ 31 →
  region_size rr = rs → region_size tr = ts →
  ∃ s, init clock port rp rr rs tp tr ts baud par s0 = Ok s ∧ valid s.
Proof.
  intros Hb Hrs Hts Hrr Htr.
  destruct (init_Ok clock port rp rr rs tp tr ts baud par s0 Hb)
    as (s & Hs & E1 & E2 & E3 & E4 & E5 & E6 & E7 & _).
  exists s. split; [done |].
  constructor; rewrite ?E1, ?E2, ?E3, ?E4, ?E5, ?E6, ?E7; lia.
Qed.






(** ** Round trip *)






(** ** Delivery in order *)

(** C1, as stated, fails: on an idle driver of capacity 8 an empty packet
    sets the in-progress flag without arming a byte, so that a packet of
    eight bytes enqueued next brings head back onto tail; the interrupt
    then finds nothing unsent and the eight bytes never reach the
    hardware. *)
Lemma empty_then_full_packet_is_lost :
  let s := idle_driver 8 0 in
  let l := [Enqueue [];
            Enqueue ["A"; "B"; "C"; "D"; "E"; "F"; "G"; "H"]%byte] in
  valid s ∧ idle s ∧ region_size (enqueued l) ≤ tx_buffer_size s ∧
  ∃ s1 s2,
    handle_all l s = Ok s1
    ∧ drive_until_idle 4 s1 = Some (Ok s2)
    ∧ pdc_Tx_in_progress s2 = false
    ∧ handed_to_hardware s2 = []
    ∧ handed_to_hardware s2 ≠ handed_to_hardware s ++ enqueued l.
Proof.
  intros s l.
  split; [valid_by_computation |].
  split; [done |]. split; [vm_compute; congruence |].
  do 2 eexists. split; [by vm_compute |]. split; [by vm_compute |].
  repeat split; done.
Qed.

(** C1, amended.  Start from a valid idle driver and take any sequence of
    enqueue calls, none with an empty packet, whose lengths add up to at
    most [tx_capacity], interleaved at will with invocations of the
    interrupt handler under any conditions.  Every call returns; serving
    transmit-complete interrupts afterwards until the in-progress flag drops
    terminates; and the byte runs handed to the transmit channel since the
    start, concatenated in arming order, are exactly the enqueued bytes in
    order. *)
Theorem bytes_reach_hardware_in_order :
  ∀ (l : list event) (s : serial_circular_buffer),
    valid s → idle s →
    Forall nonempty_packet l →
    region_size (enqueued l) ≤ tx_buffer_size s →
    ∃ s1 s2,
      handle_all l s = Ok s1
      ∧ (∀ fuel, (3 < fuel)%nat → drive_until_idle fuel s1 = Some (Ok s2))
      ∧ pdc_Tx_in_progress s2 = false
      ∧ handed_to_hardware s2 = handed_to_hardware s ++ enqueued l.
Proof.
  intros l s H Hidle Hne Hcap.
  pose proof (tracks_start s H Hidle) as T0.
  destruct (tracks_handle_all _ _ l _ _ _ T0 Hne) as (s1 & a1 & Hs1 & T1).
  { change (region_size []) with 0. lia. }
  rewrite app_nil_l in T1.
  pose proof (tracks_valid _ _ _ _ _ T1) as Hv1.
  destruct (drive_until_idle_terminates 3 s1 Hv1 (interrupts_to_idle_bound _))
    as [s2 Hs2].
  exists s1, s2. split; [done |]. split; [done |].
  destruct (drive_until_idle_invariant
              (λ x, ∃ a, tracks (handed_to_hardware s) (tx_buffer_head_index s)
                           (enqueued l) a x)
              (λ x '(ex_intro _ a T), tracks_valid _ _ _ _ _ T)
              (λ x '(ex_intro _ a T), tracks_transmit_complete_only _ _ _ _ _ T)
              4 s1 s2) as [[a2 T2] Hip].
  { by exists a1. }
  { apply Hs2. lia. }
  split; [done |].
  rewrite (tracks_hardware _ _ _ _ _ T2), (tracks_idle _ _ _ _ _ T2 Hip).
  f_equal. apply take_ge. unfold region_size. lia.
Qed.

(** Capacity 8, head and tail at 6: a five-byte packet that wraps, the
    interrupt for its first block, two more bytes queued behind it. *)
Lemma bytes_reach_hardware_in_order_at_wraparound :
  let s := idle_driver 8 6 in
  let l := [Enqueue ["A"; "B"; "C"; "D"; "E"]%byte;
            Interrupt false true;
            Enqueue ["F"; "G"]%byte] in
  valid s ∧ idle s ∧ Forall nonempty_packet l
  ∧ region_size (enqueued l) ≤ tx_buffer_size s ∧
  ∃ s1 s2,
    handle_all l s = Ok s1
    ∧ drive_until_idle 4 s1 = Some (Ok s2)
    ∧ pdc_Tx_in_progress s2 = false
    ∧ handed_to_hardware s2 = ["A"; "B"; "C"; "D"; "E"; "F"; "G"]%byte.
Proof.
  intros s l.
  assert (H : valid s) by valid_by_computation.
  assert (Hi : idle s) by done.
  assert (Hne : Forall nonempty_packet l) by (repeat constructor; done).
  assert (Hcap : region_size (enqueued l) ≤ tx_buffer_size s) by (vm_compute; congruence).
  split; [done |]. split; [done |]. split; [done |]. split; [done |].
  destruct (bytes_reach_hardware_in_order l s H Hi Hne Hcap)
    as (s1 & s2 & Hs1 & Hs2 & Hip & Hbytes).
  exists s1, s2. split; [done |]. split; [apply Hs2; lia |]. split; done.
Defined.


(** ** The instance pointers *)

Lemma call_on_pointers this f σ σ' :
  call_on this f σ = Ok σ' →
  UART0_ISR_instance_ptr σ' = UART0_ISR_instance_ptr σ
  ∧ UART1_ISR_instance_ptr σ' = UART1_ISR_instance_ptr σ.
Proof.
  unfold call_on. destruct (f _) as [s |]; simpl; [| done].
  by intros [= <-].
Qed.

Lemma call_through_pointers ptr rxf txe σ σ' :
  call_through ptr rxf txe σ = Ok σ' →
  UART0_ISR_instance_ptr σ' = UART0_ISR_instance_ptr σ
  ∧ UART1_ISR_instance_ptr σ' = UART1_ISR_instance_ptr σ.
Proof. destruct ptr; [apply call_on_pointers | done]. Qed.

(** What one action does to the two pointers. *)
Lemma perform_pointers a σ σ' :
  perform a σ = Ok σ' →
  UART0_ISR_instance_ptr σ' =
    match a with
    | Do_init this UART_PORT_0 _ _ _ _ _ _ _ _ => Some this
    | _ => UART0_ISR_instance_ptr σ
    end
  ∧ UART1_ISR_instance_ptr σ' =
    match a with
    | Do_init this UART_PORT_1 _ _ _ _ _ _ _ _ => Some this
    | _ => UART1_ISR_instance_ptr σ
    end.
Proof.
  destruct a as [this port rp rr rs tp tr ts baud par | this | this data n
                | this rxf txe | rxf txe | rxf txe]; simpl.
  - unfold call_init. destruct (init _ _ _ _ _ _ _ _ _ _ _) as [s |]; simpl; [| done].
    intros [= <-]. by destruct port.
  - apply call_on_pointers.
  - apply call_on_pointers.
  - apply call_on_pointers.
  - apply call_through_pointers.
  - apply call_through_pointers.
Qed.

Lemma pointers_stay_set l : ∀ σ σ',
  perform_all l σ = Ok σ' →
  (is_Some (UART0_ISR_instance_ptr σ) → is_Some (UART0_ISR_instance_ptr σ'))
  ∧ (is_Some (UART1_ISR_instance_ptr σ) → is_Some (UART1_ISR_instance_ptr σ')).
Proof.
  induction l as [| a l IH]; intros σ σ' Hrun; simpl in Hrun.
  - by simplify_eq.
  - destruct (perform a σ) as [σ1 |] eqn:Ha; simpl in Hrun; [| done].
    destruct (perform_pointers _ _ _ Ha) as [H0 H1].
    destruct (IH _ _ Hrun) as [IH0 IH1].
    split; intros Hs.
    + apply IH0. rewrite H0. repeat case_match; done.
    + apply IH1. rewrite H1. repeat case_match; done.
Qed.

Lemma pointers_stay_null l : ∀ σ σ',
  perform_all l σ = Ok σ' →
  (Forall (λ a, ¬ is_init_of UART_PORT_0 a) l →
   UART0_ISR_instance_ptr σ = None → UART0_ISR_instance_ptr σ' = None)
  ∧ (Forall (λ a, ¬ is_init_of UART_PORT_1 a) l →
     UART1_ISR_instance_ptr σ = None → UART1_ISR_instance_ptr σ' = None).
Proof.
  induction l as [| a l IH]; intros σ σ' Hrun; simpl in Hrun.
  - by simplify_eq.
  - destruct (perform a σ) as [σ1 |] eqn:Ha; simpl in Hrun; [| done].
    destruct (perform_pointers _ _ _ Ha) as [H0 H1].
    destruct (IH _ _ Hrun) as [IH0 IH1].
    split; intros [Hna Hnl]%Forall_cons Hnull.
    + apply IH0; [done |]. rewrite H0.
      destruct a as [this port ? ? ? ? ? ? ? ? | | | | |]; try done.
      simpl in Hna. destruct port; congruence.
    + apply IH1; [done |]. rewrite H1.
      destruct a as [this port ? ? ? ? ? ? ? ? | | | | |]; try done.
      simpl in Hna. destruct port; congruence.
Qed.

Lemma irq_handler_never_null rxf txe s :
  serial_circular_buffer_irq_handler rxf txe s ≠ Fault NullDereference.
Proof.
  unfold serial_circular_buffer_irq_handler, increment_tx_buffer_tail_index,
    umod, mbind, result_bind.
  repeat case_match; congruence.
Qed.

Lemma call_through_set this rxf txe σ :
  call_through (Some this) rxf txe σ ≠ Fault NullDereference.
Proof.
  unfold call_through, call_on.
  pose proof (irq_handler_never_null rxf txe (object_at this σ)).
  destruct (serial_circular_buffer_irq_handler _ _ _); simpl; congruence.
Qed.

(** C10.  Both instance pointers are null when the program starts.  An
    interrupt entry point invoked while its pointer is null faults with a
    null dereference, so this is what happens on every run from the start
    that has not called [init] for that port.  A call of [init] for a port
    sets the pointer of that port to the object, and from then on, whatever
    the program does, the pointer stays set and the entry point no longer
    dereferences a null pointer. *)
Theorem instance_pointers :
  (∀ clock,
     UART0_ISR_instance_ptr (startup clock) = None
     ∧ UART1_ISR_instance_ptr (startup clock) = None)
  ∧ (∀ σ rxf txe,
       (UART0_ISR_instance_ptr σ = None →
        UART0_Handler rxf txe σ = Fault NullDereference)
       ∧ (UART1_ISR_instance_ptr σ = None →
          UART1_Handler rxf txe σ = Fault NullDereference))
  ∧ (∀ clock l σ rxf txe,
       perform_all l (startup clock) = Ok σ →
       (Forall (λ a, ¬ is_init_of UART_PORT_0 a) l →
        UART0_Handler rxf txe σ = Fault NullDereference)
       ∧ (Forall (λ a, ¬ is_init_of UART_PORT_1 a) l →
          UART1_Handler rxf txe σ = Fault NullDereference))
  ∧ (∀ this rp rr rs tp tr ts baud par σ σ',
       (call_init this UART_PORT_0 rp rr rs tp tr ts baud par σ = Ok σ' →
        UART0_ISR_instance_ptr σ' = Some this)
       ∧ (call_init this UART_PORT_1 rp rr rs tp tr ts baud par σ = Ok σ' →
          UART1_ISR_instance_ptr σ' = Some this))
  ∧ (∀ l σ σ' rxf txe,
       perform_all l σ = Ok σ' →
       (is_Some (UART0_ISR_instance_ptr σ) →
        is_Some (UART0_ISR_instance_ptr σ')
        ∧ UART0_Handler rxf txe σ' ≠ Fault NullDereference)
       ∧ (is_Some (UART1_ISR_instance_ptr σ) →
          is_Some (UART1_ISR_instance_ptr σ')
          ∧ UART1_Handler rxf txe σ' ≠ Fault NullDereference)).
Proof.
  split; [done |]. split.
  { intros σ rxf txe. unfold UART0_Handler, UART1_Handler.
    split; intros ->; done. }
  split.
  { intros clock l σ rxf txe Hrun.
    destruct (pointers_stay_null l _ _ Hrun) as [H0 H1].
    unfold UART0_Handler, UART1_Handler.
    split; intros Hl; [rewrite H0 | rewrite H1]; done. }
  split.
  { intros this rp rr rs tp tr ts baud par σ σ'. unfold call_init.
    split; (destruct (init _ _ _ _ _ _ _ _ _ _ _) as [s |]; simpl; [| done]);
      by intros [= <-]. }
  intros l σ σ' rxf txe Hrun.
  destruct (pointers_stay_set l _ _ Hrun) as [H0 H1].
  unfold UART0_Handler, UART1_Handler.
  split; intros Hs.
  - destruct (H0 Hs) as [this Hthis]. rewrite Hthis.
    split; [done | apply call_through_set].
  - destruct (H1 Hs) as [this Hthis]. rewrite Hthis.
    split; [done | apply call_through_set].
Qed.

(** Object 1 is initialised on port 0 only: from then on the entry point of
    port 0 runs the handler of object 1, and the entry point of port 1
    still dereferences a null pointer. *)
Lemma instance_pointers_after_init_of_port_0 :
  let l := [Do_copy_packet 1%positive ["A"; "B"; "C"]%byte 3] in
  ∃ σ1 σ,
    call_init 1%positive UART_PORT_0
      0x20000000 (replicate 8 "000"%byte) 8
      0x20001000 (replicate 8 "000"%byte) 8
      115200 UART_PARITY_NONE (startup 120000000) = Ok σ1
    ∧ perform_all l σ1 = Ok σ
    ∧ UART0_ISR_instance_ptr σ1 = Some 1%positive
    ∧ is_Some (UART0_ISR_instance_ptr σ)
    ∧ UART0_Handler false true σ ≠ Fault NullDereference
    ∧ UART1_ISR_instance_ptr σ = None
    ∧ UART1_Handler false true σ = Fault NullDereference
    ∧ UART0_Handler false true (startup 120000000) = Fault NullDereference.
Proof.
  intros l.
  destruct instance_pointers as (_ & Hnull & Hstart & Hinit & Hset).
  let r := eval vm_compute in
    (call_init 1%positive UART_PORT_0
       0x20000000 (replicate 8 "000"%byte) 8
       0x20001000 (replicate 8 "000"%byte) 8
       115200 UART_PARITY_NONE (startup 120000000)) in
  match r with Ok ?x => pose (σ1 := x) end.
  let r := eval vm_compute in (perform_all l σ1) in
  match r with Ok ?x => pose (σ := x) end.
  assert (H1 : call_init 1%positive UART_PORT_0
       0x20000000 (replicate 8 "000"%byte) 8
       0x20001000 (replicate 8 "000"%byte) 8
       115200 UART_PARITY_NONE (startup 120000000) = Ok σ1) by (by vm_compute).
  assert (H2 : perform_all l σ1 = Ok σ) by (by vm_compute).
  exists σ1, σ. split; [done |]. split; [done |].
  pose proof (proj1 (Hinit _ _ _ _ _ _ _ _ _ _ _) H1) as Hptr.
  split; [done |].
  destruct (proj1 (Hset l σ1 σ false true H2)) as [Hsome Hhandler].
  { rewrite Hptr. by eexists. }
  split; [done |]. split; [done |].
  assert (Hnone : UART1_ISR_instance_ptr σ = None) by done.
  split; [done |].
  split; [by apply (proj2 (Hnull σ false true)) |].
  by apply (proj1 (Hstart 120000000 [] (startup 120000000) false true eq_refl)).
Defined.

(** ** Initialisation *)

Lemma baud_divisor_zero baud :
  to_uint32 (baud * 16) = 0 ↔ baud mod 2 ^ 28 = 0.
Proof.
  unfold to_uint32. change (2 ^ 32) with (2 ^ 28 * 16).
  rewrite Z.mul_mod_distr_r by lia. lia.
Qed.

(** X1.  [init] for one of the two ports divides the clock by
    [baud_rate * 16] computed in 32 bits: it is undefined (a division by
    zero) exactly for the baud rates that are multiples of [2 ^ 28], zero
    included, and returns for every other baud rate. *)
Theorem init_baud_rate :
  ∀ clock port rp rr rs tp tr ts baud par s0,
    supported_port port →
    (baud mod 2 ^ 28 = 0 →
       init clock port rp rr rs tp tr ts baud par s0 = Fault DivisionByZero)
    ∧ (baud mod 2 ^ 28 ≠ 0 →
         ∃ s, init clock port rp rr rs tp tr ts baud par s0 = Ok s).
Proof.
  intros * _. split; intros Hb.
  - apply baud_divisor_zero in Hb.
    unfold init, HAL_UART_INITIAILZE, udiv. rewrite Hb. done.
  - assert (to_uint32 (baud * 16) ≠ 0) as Hne by (by rewrite baud_divisor_zero).
    destruct (init_Ok clock port rp rr rs tp tr ts baud par s0 Hne) as (s & Hs & _).
    by exists s.
Qed.

Lemma init_baud_rate_witness :
  supported_port UART_PORT_0 ∧
  2 ^ 28 mod 2 ^ 28 = 0 ∧ 115200 mod 2 ^ 28 ≠ 0 ∧
  init 120000000 UART_PORT_0 0x20000000 (replicate 8 "000"%byte) 8
    0x20001000 (replicate 8 "000"%byte) 8 (2 ^ 28) UART_PARITY_NONE
    zero_initialized = Fault DivisionByZero
  ∧ ∃ s, init 120000000 UART_PORT_0 0x20000000 (replicate 8 "000"%byte) 8
           0x20001000 (replicate 8 "000"%byte) 8 115200 UART_PARITY_NONE
           zero_initialized = Ok s.
Proof.
  assert (H1 : 2 ^ 28 mod 2 ^ 28 = 0) by done.
  assert (H2 : 115200 mod 2 ^ 28 ≠ 0) by (vm_compute; congruence).
  assert (Hp : supported_port UART_PORT_0) by (by left).
  split; [done |]. split; [done |]. split; [done |]. split.
  - by apply (proj1 (init_baud_rate _ _ _ _ _ _ _ _ _ _ _ Hp)).
  - by apply (proj2 (init_baud_rate _ _ _ _ _ _ _ _ _ _ _ Hp)).
Defined.

(** X2.  When [init] for one of the two ports returns, whatever the object
    was before, the driver is idle with all three indices at zero, no byte
    is unread and none unsent, the receive channel is armed with the
    receive region, both PDC channels are enabled, the receive-full
    interrupt is enabled and the transmit-empty interrupt disabled.  [init]
    writes neither the pointer nor the counter of the transmit channel: for
    an object that was already bound to this port they, and the history of
    the channel, are as before the call.  With regions of the sizes passed,
    at most [2 ^ 31] bytes each, the state is valid. *)
Theorem init_postcondition :
  ∀ clock port rp rr rs tp tr ts baud par s0 s,
    supported_port port →
    init clock port rp rr rs tp tr ts baud par s0 = Ok s →
    idle s
    ∧ tx_buffer_head_index s = 0 ∧ rx_buffer_tail_index s = 0
    ∧ get_number_of_unread_bytes s = 0
    ∧ get_number_of_unsent_bytes s = 0
    ∧ PERIPH_RPR (registers s) = rp ∧ PERIPH_RCR (registers s) = rs
    ∧ PERIPH_RXTEN (registers s) = true ∧ PERIPH_TXTEN (registers s) = true
    ∧ UART_IMR_RXBUFF (registers s) = true
    ∧ UART_IMR_TXBUFE (registers s) = false
    ∧ (uart_peripheral_base_address s0 = Some port →
       PERIPH_TPR (registers s) = PERIPH_TPR (registers s0)
       ∧ PERIPH_TCR (registers s) = PERIPH_TCR (registers s0)
       ∧ tx_transfers (registers s) = tx_transfers (registers s0))
    ∧ (0 < rs ≤ 2 ^ 31 → 0 < ts ≤ 2 ^ 31 →
       region_size rr = rs → region_size tr = ts → valid s).
Proof.
  intros * _ Hinit. unfold init in Hinit.
  destruct (HAL_UART_INITIAILZE _ _ _ _) as [p |] eqn:Hp; simpl in Hinit; [| done].
  unfold HAL_UART_INITIAILZE in Hp.
  destruct (udiv _ _) as [cd |]; simpl in Hp; [| done].
  injection Hp as <-. injection Hinit as <-.
  assert (Hunread : ∀ x, wrapped_difference (to_uint32 (x - x)) 0 x = 0)
    by (intros x; by rewrite Z.sub_diag).
  split; [done |]. do 2 (split; [done |]).
  split; [apply Hunread |].
  do 8 (split; [done |]).
  intros Hrs Hts Hrr Htr. constructor; simpl; lia.
Qed.

(** X3.  [init] is idempotent: called again with the same arguments on the
    object it has just initialised, it returns the same object. *)
Theorem init_idempotent :
  ∀ clock port rp rr rs tp tr ts baud par s0 s,
    supported_port port →
    init clock port rp rr rs tp tr ts baud par s0 = Ok s →
    init clock port rp rr rs tp tr ts baud par s = Ok s.
Proof.
  intros * _ Hinit. unfold init in *.
  destruct (HAL_UART_INITIAILZE _ _ _ (registers s0)) as [p |] eqn:Hp;
    simpl in Hinit; [| done].
  unfold HAL_UART_INITIAILZE in *.
  destruct (udiv _ _) as [cd |]; simpl in *; [| done].
  injection Hp as <-. injection Hinit as <-. simpl.
  by destruct port.
Qed.

(** A driver on port 0 with the first block of a wrapped packet in flight
    is initialised again on port 0. *)
Lemma init_postcondition_witness :
  let s0 := enqueue_outcome ["A"; "B"; "C"; "D"; "E"]%byte (idle_driver 8 6) in
  supported_port UART_PORT_0 ∧
  ∃ s, init 120000000 UART_PORT_0 0x20000000 (replicate 4 "000"%byte) 4
         0x20001000 (replicate 8 "000"%byte) 8 9600 UART_PARITY_EVEN s0 = Ok s
    ∧ valid s ∧ idle s ∧ get_number_of_unsent_bytes s = 0
    ∧ PERIPH_TPR (registers s) = 0x20001000 + 6
    ∧ PERIPH_TCR (registers s) = 2.
Proof.
  intros s0.
  assert (Hp : supported_port UART_PORT_0) by (by left).
  split; [done |].
  let r := eval vm_compute in
    (init 120000000 UART_PORT_0 0x20000000 (replicate 4 "000"%byte) 4
       0x20001000 (replicate 8 "000"%byte) 8 9600 UART_PARITY_EVEN s0) in
  match r with Ok ?x => pose (s := x) end.
  assert (Hs : init 120000000 UART_PORT_0 0x20000000 (replicate 4 "000"%byte) 4
                 0x20001000 (replicate 8 "000"%byte) 8 9600 UART_PARITY_EVEN s0
               = Ok s) by (by vm_compute).
  exists s. split; [done |].
  destruct (init_postcondition _ _ _ _ _ _ _ _ _ _ _ _ Hp Hs)
    as (Hidle & _ & _ & _ & Hu & _ & _ & _ & _ & _ & _ & Hframe & Hv).
  destruct (Hframe eq_refl) as (Htpr & Htcr & _).
  split; [apply Hv; (done || lia) |]. split; [done |]. split; [done |].
  split; [by rewrite Htpr | by rewrite Htcr].
Defined.

Lemma init_idempotent_witness :
  supported_port UART_PORT_0 ∧
  ∃ s, init 120000000 UART_PORT_0 0x20000000 (replicate 4 "000"%byte) 4
         0x20001000 (replicate 8 "000"%byte) 8 9600 UART_PARITY_EVEN
         zero_initialized = Ok s
    ∧ init 120000000 UART_PORT_0 0x20000000 (replicate 4 "000"%byte) 4
        0x20001000 (replicate 8 "000"%byte) 8 9600 UART_PARITY_EVEN s = Ok s.
Proof.
  assert (Hp : supported_port UART_PORT_0) by (by left).
  split; [done |].
  let r := eval vm_compute in
    (init 120000000 UART_PORT_0 0x20000000 (replicate 4 "000"%byte) 4
       0x20001000 (replicate 8 "000"%byte) 8 9600 UART_PARITY_EVEN
       zero_initialized) in
  match r with Ok ?x => pose (s := x) end.
  assert (Hs : init 120000000 UART_PORT_0 0x20000000 (replicate 4 "000"%byte) 4
                 0x20001000 (replicate 8 "000"%byte) 8 9600 UART_PARITY_EVEN
                 zero_initialized = Ok s) by (by vm_compute).
  exists s. split; [done |].
  apply (init_idempotent _ _ _ _ _ _ _ _ _ _ _ _ Hp Hs).
Defined.

(** ** The receive tracker *)

Lemma read_many_S k s :
  read_many (S k) s =
    (r ← get_latest_byte s; rest ← read_many k r.2; Ok (r.1 :: rest.1, rest.2)).
Proof. done. Qed.

(** X4.  In a valid state [k] calls of [get_latest_byte] in a row all
    return: they deliver the bytes of the receive region at indices
    [tail], [tail + 1], ... taken modulo the capacity, in that order, and
    leave the tail at [(tail + k) mod rx_capacity] and everything else as
    it was.  Nothing stops the reads at the head: after [rx_capacity]
    reads the tail is back where it started. *)
Theorem read_many_circular :
  ∀ (k : nat) (s : serial_circular_buffer),
    valid s →
    ∃ bytes,
      read_many k s
      = Ok (bytes,
            set_rx_buffer_tail_index
              ((rx_buffer_tail_index s + Z.of_nat k) mod rx_buffer_size s) s)
      ∧ length bytes = k
      ∧ ∀ i, (i < k)%nat →
          bytes !! i
          = rx_storage s
              !! Z.to_nat ((rx_buffer_tail_index s + Z.of_nat i)
                             mod rx_buffer_size s).
Proof.
  induction k as [| k IH]; intros s H.
  - exists []. simpl. rewrite Z.add_0_r, Z.mod_small by apply H.
    split; [by destruct s |]. split; [done |]. intros i Hi. lia.
  - assert (Hc : 0 < rx_buffer_size s) by (destruct H; lia).
    assert (Ht : 0 ≤ rx_buffer_tail_index s < rx_buffer_size s) by apply H.
    destruct (get_latest_byte_Ok s H) as (b & Hb & Hcall).
    set (s1 := set_rx_buffer_tail_index
                 ((rx_buffer_tail_index s + 1) mod rx_buffer_size s) s) in *.
    assert (H1 : valid s1).
    { apply valid_set_rx_tail; [done |]. by apply Z.mod_pos_bound. }
    destruct (IH s1 H1) as (rest & Hrest & Hlen & Hnth).
    exists (b :: rest). rewrite read_many_S, Hcall. simpl. rewrite Hrest. simpl.
    split.
    + do 2 f_equal. subst s1. simpl.
      rewrite mod_advance by done.
      replace (rx_buffer_tail_index s + 1 + Z.of_nat k)
        with (rx_buffer_tail_index s + Z.of_nat (S k)) by lia.
      by destruct s.
    + split; [simpl; by rewrite Hlen |].
      intros [| i] Hi.
      * simpl. rewrite Z.add_0_r, Z.mod_small by done. done.
      * simpl. rewrite Hnth by lia. subst s1. simpl.
        rewrite mod_advance by done. do 3 f_equal. lia.
Qed.

(** Four reads on a region of four bytes come back to the tail. *)
Lemma read_many_circular_witness :
  let s := set_rx_buffer_tail_index 3 (idle_driver 8 0) in
  valid s ∧
  ∃ bytes, read_many 4 s = Ok (bytes, s).
Proof.
  intros s.
  assert (H : valid s) by valid_by_computation.
  split; [done |].
  destruct (read_many_circular 4 s H) as (bytes & Hr & _).
  exists bytes. rewrite Hr. done.
Defined.

(** X5.  In a valid state whose derived head lies inside the region, a
    call of [get_latest_byte] changes the unread count to
    [(count - 1) mod rx_capacity]: one less when a byte was unread, and
    [rx_capacity - 1] when none was, since the read of an empty buffer is
    not refused. *)
Theorem unread_after_read :
  ∀ (s s' : serial_circular_buffer) (b : byte),
    valid s →
    0 ≤ get_rx_buffer_head_index s < rx_buffer_size s →
    get_latest_byte s = Ok (b, s') →
    get_number_of_unread_bytes s'
    = (get_number_of_unread_bytes s - 1) mod rx_buffer_size s
    ∧ (0 < get_number_of_unread_bytes s →
       get_number_of_unread_bytes s' = get_number_of_unread_bytes s - 1)
    ∧ (get_number_of_unread_bytes s = 0 →
       get_number_of_unread_bytes s' = rx_buffer_size s - 1).
Proof.
  intros s s' b H Hhd Hcall.
  assert (Hc : 0 < rx_buffer_size s ≤ 2 ^ 31) by apply H.
  assert (Ht : 0 ≤ rx_buffer_tail_index s < rx_buffer_size s) by apply H.
  destruct (get_latest_byte_Ok s H) as (b' & _ & Hcall').
  rewrite Hcall' in Hcall. injection Hcall as <- <-.
  assert (Hbefore : get_number_of_unread_bytes s
                    = (get_rx_buffer_head_index s - rx_buffer_tail_index s)
                        mod rx_buffer_size s).
  { unfold get_number_of_unread_bytes.
    rewrite wrapped_difference_spec by done.
    replace (get_rx_buffer_head_index s - rx_buffer_tail_index s + rx_buffer_size s)
      with (get_rx_buffer_head_index s - rx_buffer_tail_index s
            + 1 * rx_buffer_size s) by lia.
    by rewrite Z.mod_add by lia. }
  assert (Hafter : get_number_of_unread_bytes
                     (set_rx_buffer_tail_index
                        ((rx_buffer_tail_index s + 1) mod rx_buffer_size s) s)
                   = (get_number_of_unread_bytes s - 1) mod rx_buffer_size s).
  { unfold get_number_of_unread_bytes at 1.
    change (get_rx_buffer_head_index (set_rx_buffer_tail_index ?i s))
      with (get_rx_buffer_head_index s).
    change (rx_buffer_size (set_rx_buffer_tail_index ?i s))
      with (rx_buffer_size s).
    change (rx_buffer_tail_index (set_rx_buffer_tail_index ?i s)) with i.
    rewrite wrapped_difference_spec; [| done | done | apply Z.mod_pos_bound; lia].
    rewrite Hbefore.
    replace (get_rx_buffer_head_index s
             - (rx_buffer_tail_index s + 1) mod rx_buffer_size s
             + rx_buffer_size s)
      with (get_rx_buffer_head_index s
            - (rx_buffer_tail_index s + 1) mod rx_buffer_size s
            + 1 * rx_buffer_size s) by lia.
    rewrite Z.mod_add by lia.
    rewrite Zminus_mod_idemp_r, Zminus_mod_idemp_l. f_equal. lia. }
  split; [done |].
  pose proof (Z.mod_pos_bound (get_rx_buffer_head_index s - rx_buffer_tail_index s)
                (rx_buffer_size s)) as Hb.
  split; intros Hu; rewrite Hafter.
  - rewrite Z.mod_small; lia.
  - rewrite Hu.
    replace (0 - 1) with (rx_buffer_size s - 1 + -1 * rx_buffer_size s) by lia.
    rewrite Z.mod_add by lia. rewrite Z.mod_small; lia.
Qed.

(** Capacity 4, freshly armed, nothing received: the read returns and three
    bytes count as unread. *)
Lemma unread_after_read_on_empty_buffer :
  let s := set_registers (set_receive_channel 0x20000000 4 reset_peripheral)
             (idle_driver 8 0) in
  valid s ∧ 0 ≤ get_rx_buffer_head_index s < rx_buffer_size s ∧
  get_number_of_unread_bytes s = 0 ∧
  ∃ b s', get_latest_byte s = Ok (b, s') ∧ get_number_of_unread_bytes s' = 3.
Proof.
  intros s.
  assert (H : valid s) by valid_by_computation.
  assert (Hh : 0 ≤ get_rx_buffer_head_index s < rx_buffer_size s)
    by (vm_compute; split; congruence).
  assert (Hu : get_number_of_unread_bytes s = 0) by done.
  split; [done |]. split; [done |]. split; [done |].
  destruct (get_latest_byte_Ok s H) as (b & _ & Hcall).
  eexists b, _. split; [done |].
  destruct (unread_after_read s _ b H Hh Hcall) as (_ & _ & Hempty).
  by rewrite Hempty.
Defined.

(** X6.  The receive counter at zero (the region is full and the handler
    has not run yet), in a valid state with a capacity below [2 ^ 31]: the
    unread count is [rx_capacity - tail].  The receive-full branch of the
    handler then re-arms the channel, after which the count is
    [(rx_capacity - tail) mod rx_capacity]: the same when the tail is not
    zero, but [0] instead of [rx_capacity] when the tail is zero, so a
    region full of unread bytes counts as empty. *)
Theorem receive_full_and_unread :
  ∀ s : serial_circular_buffer,
    valid s →
    rx_buffer_size s < 2 ^ 31 →
    PERIPH_RCR (registers s) = 0 →
    ∃ s',
      serial_circular_buffer_irq_handler true false s = Ok s'
      ∧ get_number_of_unread_bytes s = rx_buffer_size s - rx_buffer_tail_index s
      ∧ get_number_of_unread_bytes s'
        = (rx_buffer_size s - rx_buffer_tail_index s) mod rx_buffer_size s
      ∧ (0 < rx_buffer_tail_index s →
         get_number_of_unread_bytes s' = get_number_of_unread_bytes s)
      ∧ (rx_buffer_tail_index s = 0 →
         get_number_of_unread_bytes s = rx_buffer_size s
         ∧ get_number_of_unread_bytes s' = 0).
Proof.
  intros s H Hlt Hrcr.
  assert (Hc : 0 < rx_buffer_size s ≤ 2 ^ 31) by apply H.
  assert (Ht : 0 ≤ rx_buffer_tail_index s < rx_buffer_size s) by apply H.
  exists (receive_rearmed true s). split; [done |].
  assert (Hfull : get_number_of_unread_bytes s
                  = rx_buffer_size s - rx_buffer_tail_index s).
  { unfold get_number_of_unread_bytes, get_rx_buffer_head_index,
      HAL_PDC_READ_RECEIVE_COUNTER_VALUE.
    rewrite Hrcr, Z.sub_0_r. rewrite (to_uint32_small (rx_buffer_size s)) by lia.
    unfold wrapped_difference.
    rewrite (to_uint32_small (rx_buffer_size s - rx_buffer_tail_index s)) by lia.
    rewrite to_int32_small by lia. case_match; [lia |].
    rewrite to_uint32_small; lia. }
  assert (Hre : get_number_of_unread_bytes (receive_rearmed true s)
                = (rx_buffer_size s - rx_buffer_tail_index s) mod rx_buffer_size s).
  { unfold get_number_of_unread_bytes, get_rx_buffer_head_index,
      HAL_PDC_READ_RECEIVE_COUNTER_VALUE. simpl.
    rewrite Z.sub_diag. change (to_uint32 0) with 0.
    rewrite wrapped_difference_spec by lia. f_equal. lia. }
  split; [done |]. split; [done |]. split.
  - intros Hpos. rewrite Hre, Hfull. rewrite Z.mod_small; lia.
  - intros Hz. split; [lia |]. rewrite Hre, Hz, Z.sub_0_r. apply Z.mod_same. lia.
Qed.

(** Capacity 4, tail 0, counter 0: four unread bytes before the handler
    runs, none after. *)
Lemma receive_full_and_unread_witness :
  let s := idle_driver 8 0 in
  valid s ∧ rx_buffer_size s < 2 ^ 31 ∧ PERIPH_RCR (registers s) = 0 ∧
  get_number_of_unread_bytes s = 4 ∧
  ∃ s', serial_circular_buffer_irq_handler true false s = Ok s'
        ∧ get_number_of_unread_bytes s' = 0.
Proof.
  intros s.
  assert (H : valid s) by valid_by_computation.
  assert (Hlt : rx_buffer_size s < 2 ^ 31) by done.
  assert (Hr : PERIPH_RCR (registers s) = 0) by done.
  split; [done |]. split; [done |]. split; [done |].
  destruct (receive_full_and_unread s H Hlt Hr) as (s' & Hs' & _ & _ & _ & Hz).
  split; [by apply Hz |]. exists s'. split; [done |]. by apply Hz.
Defined.

(** ** Queueing behind a transfer *)

(** X7.  A packet of at most [tx_capacity] bytes enqueued on a valid driver
    while a transfer is in progress only copies the packet and advances the
    head: the packet lands at the indices [head], [head + 1], ... taken
    modulo the capacity, the head advances by its length modulo the
    capacity, and the tail, the in-progress flag, every register and the
    receive side stay as they were, so nothing is armed.  No free space is
    checked: the unsent count becomes [(count + length) mod tx_capacity],
    which for a packet of exactly [tx_capacity] bytes is the count before
    the call. *)
Theorem enqueue_while_busy :
  ∀ (data : list byte) (s : serial_circular_buffer),
    valid s →
    pdc_Tx_in_progress s = true →
    region_size data ≤ tx_buffer_size s →
    ∃ s',
      copy_packet_into_Tx_buffer_and_transmit data (region_size data) s = Ok s'
      ∧ s' = set_tx_buffer_head_index (tx_buffer_head_index s')
               (set_tx_storage (tx_storage s') s)
      ∧ tx_buffer_head_index s'
        = (tx_buffer_head_index s + region_size data) mod tx_buffer_size s
      ∧ (∀ k, 0 ≤ k < tx_buffer_size s →
           tx_storage s' !! Z.to_nat k =
             if decide ((k - tx_buffer_head_index s) mod tx_buffer_size s
                        < region_size data)
             then data !! Z.to_nat ((k - tx_buffer_head_index s)
                                      mod tx_buffer_size s)
             else tx_storage s !! Z.to_nat k)
      ∧ get_number_of_unsent_bytes s'
        = (get_number_of_unsent_bytes s + region_size data) mod tx_buffer_size s.
Proof.
  intros data s H Hip Hn.
  assert (Hc : 0 < tx_buffer_size s) by (destruct H; lia).
  exists (enqueue_outcome data s).
  split; [by apply copy_packet_Ok |].
  pose proof (valid_enqueue_outcome data s H Hn) as Hv.
  pose proof (unsent_spec _ Hv) as Hu.
  unfold enqueue_outcome in *. rewrite Hip in *.
  split; [done |]. split; [done |]. split.
  - intros k Hk. by apply lookup_written.
  - rewrite Hu, unsent_spec by done. simpl.
    rewrite (mod_advance (_ - _ + _)) by done.
    replace ((tx_buffer_head_index s + region_size data) mod tx_buffer_size s
             - tx_buffer_tail_index s + tx_buffer_size s)
      with ((tx_buffer_head_index s + region_size data) mod tx_buffer_size s
            + (tx_buffer_size s - tx_buffer_tail_index s)) by lia.
    rewrite mod_advance by done. f_equal. lia.
Qed.

(** Capacity 8, head and tail at 3, a transfer in progress, a packet of
    eight bytes: the head comes back to 3 and no byte counts as unsent. *)
Lemma full_packet_behind_a_transfer_is_invisible :
  let s := set_pdc_Tx_in_progress true (idle_driver 8 3) in
  let data := ["A"; "B"; "C"; "D"; "E"; "F"; "G"; "H"]%byte in
  valid s ∧ pdc_Tx_in_progress s = true ∧ region_size data ≤ tx_buffer_size s ∧
  ∃ s', copy_packet_into_Tx_buffer_and_transmit data 8 s = Ok s'
    ∧ tx_buffer_head_index s' = 3
    ∧ get_number_of_unsent_bytes s' = 0.
Proof.
  intros s data.
  assert (H : valid s) by valid_by_computation.
  assert (Hip : pdc_Tx_in_progress s = true) by done.
  assert (Hn : region_size data ≤ tx_buffer_size s) by (vm_compute; congruence).
  split; [done |]. split; [done |]. split; [done |].
  destruct (enqueue_while_busy data s H Hip Hn) as (s' & Hs' & _ & Hhd & _ & Hu).
  exists s'. split; [done |]. split; [by rewrite Hhd | by rewrite Hu].
Defined.

(** ** Packets longer than the region *)

(** X8.  The length of a packet is not checked against the capacity.  In a
    valid state a packet with [head + length > 2 * tx_capacity] (the sum
    below [2 ^ 32]) makes the second copy run past the end of the transmit
    region: the call is undefined (an out of bounds fault). *)
Theorem enqueue_beyond_twice_the_capacity :
  ∀ (data : list byte) (s : serial_circular_buffer),
    valid s →
    2 * tx_buffer_size s < region_size data + tx_buffer_head_index s < 2 ^ 32 →
    copy_packet_into_Tx_buffer_and_transmit data (region_size data) s
    = Fault OutOfBounds.
Proof.
  intros data s [Hrs Hts Hrm Htm Hh Ht Hr] Hn.
  unfold copy_packet_into_Tx_buffer_and_transmit.
  destruct s as [ub pb rb rsz tb tsz hd tl rtl ip rm tm regs]; simpl in *.
  set (n := region_size data) in *.
  rewrite (to_uint32_small (n + hd)) by lia.
  destruct (tsz <? n + hd) eqn:Hroll; [| apply Z.ltb_ge in Hroll; lia].
  rewrite (to_uint32_small (tsz - hd)) by lia.
  rewrite (to_uint32_small (n + hd - tsz)) by lia.
  rewrite memcpy_Ok by lia. simpl.
  unfold increment_tx_buffer_head_index; simpl.
  rewrite (to_uint32_small (hd + (tsz - hd))) by lia.
  rewrite umod_Ok by lia. simpl.
  replace ((hd + (tsz - hd)) mod tsz) with 0.
  2:{ replace (hd + (tsz - hd)) with tsz by lia. by rewrite Z.mod_same by lia. }
  unfold memcpy. rewrite bool_decide_false; [done |].
  rewrite region_size_blit by lia. lia.
Qed.

(** Capacity 4, head 2, seven bytes. *)
Lemma enqueue_beyond_twice_the_capacity_witness :
  let s := idle_driver 4 2 in
  let data := replicate 7 "A"%byte in
  valid s ∧
  2 * tx_buffer_size s < region_size data + tx_buffer_head_index s < 2 ^ 32 ∧
  copy_packet_into_Tx_buffer_and_transmit data 7 s = Fault OutOfBounds.
Proof.
  intros s data.
  assert (H : valid s) by valid_by_computation.
  assert (Hn : 2 * tx_buffer_size s
               < region_size data + tx_buffer_head_index s < 2 ^ 32)
    by (vm_compute; split; congruence).
  split; [done |]. split; [done |].
  apply (enqueue_beyond_twice_the_capacity data s H Hn).
Defined.

(** X9.  In a valid state a packet longer than [tx_capacity] with
    [head + length ≤ 2 * tx_capacity] (the sum below [2 ^ 32]) is accepted
    without a fault and overwrites its own beginning: with
    [first = tx_capacity - head] and [second = length - first], which is
    above the head, the indices below [second] end up holding the bytes of
    the packet from [first] on, the indices from [second] on hold the
    bytes that the first copy put there, and the head ends at
    [second mod tx_capacity]. *)
Theorem enqueue_beyond_the_capacity :
  ∀ (data : list byte) (s : serial_circular_buffer),
    valid s →
    tx_buffer_size s < region_size data →
    region_size data + tx_buffer_head_index s ≤ 2 * tx_buffer_size s →
    region_size data + tx_buffer_head_index s < 2 ^ 32 →
    let first := tx_buffer_size s - tx_buffer_head_index s in
    let second := region_size data - first in
    ∃ s',
      copy_packet_into_Tx_buffer_and_transmit data (region_size data) s = Ok s'
      ∧ tx_buffer_head_index s' = second mod tx_buffer_size s
      ∧ tx_buffer_head_index s < second
      ∧ (∀ k, 0 ≤ k < second →
           tx_storage s' !! Z.to_nat k = data !! Z.to_nat (first + k))
      ∧ (∀ k, second ≤ k < tx_buffer_size s →
           tx_storage s' !! Z.to_nat k
           = data !! Z.to_nat (k - tx_buffer_head_index s)).
Proof.
  intros data s [Hrs Hts Hrm Htm Hh Ht Hr] Hlong Hn Hu32 first second.
  unfold copy_packet_into_Tx_buffer_and_transmit.
  destruct s as [ub pb rb rsz tb tsz hd tl rtl ip rm tm regs]; simpl in *.
  set (n := region_size data) in *.
  rewrite (to_uint32_small (n + hd)) by lia.
  destruct (tsz <? n + hd) eqn:Hroll; [| apply Z.ltb_ge in Hroll; lia].
  rewrite (to_uint32_small (tsz - hd)) by lia.
  rewrite (to_uint32_small (n + hd - tsz)) by lia.
  rewrite memcpy_Ok by lia. simpl.
  unfold increment_tx_buffer_head_index; simpl.
  rewrite (to_uint32_small (hd + (tsz - hd))) by lia.
  rewrite umod_Ok by lia. simpl.
  replace ((hd + (tsz - hd)) mod tsz) with 0.
  2:{ replace (hd + (tsz - hd)) with tsz by lia. by rewrite Z.mod_same by lia. }
  rewrite memcpy_Ok.
  2-6: try lia.
  2:{ rewrite region_size_blit; lia. }
  simpl. rewrite (to_uint32_small (0 + (n + hd - tsz))) by lia.
  rewrite umod_Ok by lia. simpl.
  assert (Hlook : ∀ k, 0 ≤ k < tsz →
    blit (blit tm hd data 0 (tsz - hd)) 0 data (tsz - hd) (n + hd - tsz)
      !! Z.to_nat k
    = if decide (k < n + hd - tsz) then data !! Z.to_nat (tsz - hd + k)
      else data !! Z.to_nat (k - hd)).
  { intros k Hk. rewrite lookup_blit; try lia.
    2:{ rewrite region_size_blit; lia. }
    rewrite lookup_blit by lia.
    repeat case_decide; try lia; f_equal; lia. }
  assert (Hsecond : second = n + hd - tsz) by (unfold second, first; lia).
  destruct ip; simpl.
  - eexists. split; [done |]. simpl. rewrite Hsecond.
    split; [f_equal; lia |]. split; [lia |]. split.
    + intros k Hk. rewrite Hlook by lia. case_decide; [done | lia].
    + intros k Hk. rewrite Hlook by lia. case_decide; [lia | done].
  - unfold increment_tx_buffer_tail_index; simpl.
    rewrite (to_uint32_small (tl + (tsz - hd))) by lia.
    rewrite umod_Ok by lia. simpl.
    eexists. split; [done |]. simpl. rewrite Hsecond.
    split; [f_equal; lia |]. split; [lia |]. split.
    + intros k Hk. rewrite Hlook by lia. case_decide; [done | lia].
    + intros k Hk. rewrite Hlook by lia. case_decide; [lia | done].
Qed.

(** Capacity 4, head 2, the six bytes [A B C D E F]: the region ends up
    holding [C D E F], and [A B] are gone. *)
Lemma enqueue_beyond_the_capacity_witness :
  let s := idle_driver 4 2 in
  let data := ["A"; "B"; "C"; "D"; "E"; "F"]%byte in
  valid s ∧ tx_buffer_size s < region_size data ∧
  region_size data + tx_buffer_head_index s ≤ 2 * tx_buffer_size s ∧
  region_size data + tx_buffer_head_index s < 2 ^ 32 ∧
  ∃ s', copy_packet_into_Tx_buffer_and_transmit data 6 s = Ok s'
    ∧ tx_storage s' = ["C"; "D"; "E"; "F"]%byte
    ∧ tx_buffer_head_index s' = 0.
Proof.
  intros s data.
  assert (H : valid s) by valid_by_computation.
  assert (H1 : tx_buffer_size s < region_size data) by done.
  assert (H2 : region_size data + tx_buffer_head_index s ≤ 2 * tx_buffer_size s)
    by (vm_compute; congruence).
  assert (H3 : region_size data + tx_buffer_head_index s < 2 ^ 32) by done.
  split; [done |]. split; [done |]. split; [done |]. split; [done |].
  destruct (enqueue_beyond_the_capacity data s H H1 H2 H3) as (s' & Hs' & Hhd & _).
  exists s'. split; [done |].
  split; [| by rewrite Hhd].
  revert Hs'. vm_compute. by intros [= <-].
Defined.

(** ** Degenerate capacities *)

(** X10.  With a transmit capacity of zero every call of the transmit
    manager is undefined, and with a receive capacity of zero every call of
    [get_latest_byte]: the index update takes a remainder by the capacity.
    This is the state of an object on which [init] has not run. *)
Theorem zero_capacity_faults :
  ∀ (data : list byte) (n : Z) (s : serial_circular_buffer),
    (tx_buffer_size s = 0 →
       ∃ f, copy_packet_into_Tx_buffer_and_transmit data n s = Fault f)
    ∧ (rx_buffer_size s = 0 → ∃ f, get_latest_byte s = Fault f).
Proof.
  intros data n s. split; intros Hz.
  - unfold copy_packet_into_Tx_buffer_and_transmit.
    destruct (memcpy _ _ _ _ _) as [m |]; simpl; [| by eexists].
    assert (Hinc : ∀ i x, tx_buffer_size x = 0 →
              increment_tx_buffer_head_index i x = Fault DivisionByZero).
    { intros i x Hx. unfold increment_tx_buffer_head_index, umod.
      by rewrite Hx. }
    rewrite Hinc by done. by eexists.
  - unfold get_latest_byte.
    destruct (load _ _) as [b |]; simpl; [| by eexists].
    unfold increment_rx_buffer_tail_index, umod. rewrite Hz. simpl. by eexists.
Qed.

(** The zero-initialised object. *)
Lemma zero_capacity_faults_before_init :
  tx_buffer_size zero_initialized = 0 ∧ rx_buffer_size zero_initialized = 0 ∧
  (∃ f, copy_packet_into_Tx_buffer_and_transmit ["A"]%byte 1 zero_initialized
        = Fault f)
  ∧ ∃ f, get_latest_byte zero_initialized = Fault f.
Proof.
  split; [done |]. split; [done |]. split.
  - by apply (proj1 (zero_capacity_faults ["A"]%byte 1 zero_initialized)).
  - by apply (proj2 (zero_capacity_faults [] 0 zero_initialized)).
Defined.

(** ** Empty means head on tail *)

(** X11.  In a valid state the unsent count is zero exactly when head and
    tail coincide, and so is the unread count for a derived head inside the
    region: the counts cannot tell a full buffer from an empty one. *)
Theorem empty_iff_head_on_tail :
  ∀ s : serial_circular_buffer,
    valid s →
    (get_number_of_unsent_bytes s = 0
     ↔ tx_buffer_head_index s = tx_buffer_tail_index s)
    ∧ (0 ≤ get_rx_buffer_head_index s < rx_buffer_size s →
       (get_number_of_unread_bytes s = 0
        ↔ get_rx_buffer_head_index s = rx_buffer_tail_index s)).
Proof.
  intros s H. split.
  - apply wrapped_difference_zero; apply H.
  - intros Hh. apply wrapped_difference_zero; (done || apply H).
Qed.

(** Head 5, tail 2: some bytes are unsent. *)
Lemma empty_iff_head_on_tail_witness :
  let s := set_tx_buffer_tail_index 2 (idle_driver 8 5) in
  valid s ∧ get_number_of_unsent_bytes s ≠ 0.
Proof.
  intros s.
  assert (H : valid s) by valid_by_computation.
  split; [done |].
  intros Hz. apply (proj1 (empty_iff_head_on_tail s H)) in Hz. discriminate Hz.
Defined.

(** ** Draining a busy transmitter *)

Lemma slice_empty (m : list byte) i : slice m i 0 = [].
Proof. done. Qed.

Lemma region_size_pending_bytes s :
  valid s → region_size (pending_bytes s) = get_number_of_unsent_bytes s.
Proof.
  intros H. assert (Hm : region_size (tx_storage s) = tx_buffer_size s) by apply H.
  assert (Hh : 0 ≤ tx_buffer_head_index s < tx_buffer_size s) by apply H.
  assert (Ht : 0 ≤ tx_buffer_tail_index s < tx_buffer_size s) by apply H.
  unfold pending_bytes.
  destruct (tx_buffer_head_index s <? tx_buffer_tail_index s) eqn:Hc;
    [apply Z.ltb_lt in Hc | apply Z.ltb_ge in Hc].
  - rewrite region_size_app, !length_slice by lia.
    rewrite unsent_wrapped by done. lia.
  - rewrite length_slice by lia. by rewrite unsent_contiguous.
Qed.

Lemma draining_step s x :
  draining s x → draining s (transmit_complete_outcome false x).
Proof.
  intros (Hv & Hhd & Hst & Hbusy & Hidle).
  assert (Hc : 0 < tx_buffer_size x ≤ 2 ^ 31) by apply Hv.
  assert (Hh : 0 ≤ tx_buffer_head_index x < tx_buffer_size x) by apply Hv.
  assert (Ht : 0 ≤ tx_buffer_tail_index x < tx_buffer_size x) by apply Hv.
  split; [by apply valid_transmit_complete_outcome |].
  unfold transmit_complete_outcome, receive_rearmed.
  destruct (get_number_of_unsent_bytes x =? 0) eqn:Hz.
  - apply Z.eqb_eq in Hz.
    assert (Heq : tx_buffer_head_index x = tx_buffer_tail_index x).
    { apply (wrapped_difference_zero _ _ (tx_buffer_size x)); done. }
    simpl. split; [done |]. split; [done |]. split; [done |]. intros _.
    split; [done |].
    change (handed_to_hardware (set_registers ?r (set_pdc_Tx_in_progress ?b x)))
      with (handed_to_hardware x).
    destruct (pdc_Tx_in_progress x) eqn:Hip.
    + rewrite <- Hbusy by done. unfold pending_bytes.
      rewrite Heq, Z.ltb_irrefl, Z.sub_diag, slice_empty. by rewrite app_nil_r.
    + by apply Hidle.
  - apply Z.eqb_neq in Hz.
    assert (Hip : pdc_Tx_in_progress x = true).
    { destruct (pdc_Tx_in_progress x) eqn:Hip; [done |].
      destruct (Hidle eq_refl) as [Heq _]. exfalso. apply Hz.
      apply wrapped_difference_zero; done. }
    split; [done |]. split; [done |]. split; [| done]. intros _.
    change (handed_to_hardware (set_pdc_Tx_in_progress true ?y))
      with (handed_to_hardware y).
    change (handed_to_hardware (set_tx_buffer_tail_index ?i ?y))
      with (handed_to_hardware y).
    rewrite handed_initiate, <- Hbusy by done. rewrite <- app_assoc. f_equal.
    unfold pending_bytes, next_run. simpl.
    destruct (tx_buffer_head_index x <? tx_buffer_tail_index x) eqn:Hlt.
    + replace (tx_buffer_tail_index x + (tx_buffer_size x - tx_buffer_tail_index x))
        with (tx_buffer_size x) by lia.
      rewrite Z.mod_same by lia.
      destruct (tx_buffer_head_index x <? 0) eqn:Hneg;
        [apply Z.ltb_lt in Hneg; lia |].
      by rewrite Z.sub_0_r.
    + apply Z.ltb_ge in Hlt. rewrite unsent_contiguous by done.
      replace (tx_buffer_tail_index x
               + (tx_buffer_head_index x - tx_buffer_tail_index x))
        with (tx_buffer_head_index x) by lia.
      rewrite Z.mod_small by lia.
      rewrite Z.ltb_irrefl, Z.sub_diag, slice_empty. by rewrite app_nil_r.
Qed.

(** X12.  From any valid state with a transfer in progress, however it was
    reached, serving transmit-complete interrupts until the in-progress flag
    drops terminates (any fuel above 3 gives the same final state).  The
    runs armed on the way are exactly the pending bytes in order: the
    region from the tail up to the head when head is not below tail, and
    otherwise the region from the tail to its end followed by the region
    from its start up to the head.  Their number is the unsent count; the
    tail ends on the head; head and region contents are unchanged. *)
Theorem drain_hands_over_pending :
  ∀ s : serial_circular_buffer,
    valid s →
    pdc_Tx_in_progress s = true →
    ∃ s',
      (∀ fuel, (3 < fuel)%nat → drive_until_idle fuel s = Some (Ok s'))
      ∧ pdc_Tx_in_progress s' = false
      ∧ handed_to_hardware s' = handed_to_hardware s ++ pending_bytes s
      ∧ region_size (pending_bytes s) = get_number_of_unsent_bytes s
      ∧ tx_buffer_tail_index s' = tx_buffer_head_index s
      ∧ tx_buffer_head_index s' = tx_buffer_head_index s
      ∧ tx_storage s' = tx_storage s.
Proof.
  intros s H Hip.
  destruct (drive_until_idle_terminates 3 s H (interrupts_to_idle_bound _))
    as [s' Hs'].
  exists s'. split; [done |].
  destruct (drive_until_idle_invariant (draining s)
              (λ x Hd, proj1 Hd) (draining_step s) 4 s s')
    as [(Hv & Hhd & Hst & _ & Hidle) Hip'].
  { split; [done |]. do 2 (split; [done |]). split; [done | congruence]. }
  { apply Hs'. lia. }
  destruct (Hidle Hip') as [Htl Hhanded].
  split; [done |]. split; [done |].
  split; [by apply region_size_pending_bytes |].
  split; [congruence |]. done.
Qed.

(** Capacity 8 holding [A] to [H], tail 6, head 2: [G H A B] go out. *)
Lemma drain_hands_over_pending_wrapped :
  let s := set_pdc_Tx_in_progress true
             (set_tx_storage ["A"; "B"; "C"; "D"; "E"; "F"; "G"; "H"]%byte
                (set_tx_buffer_tail_index 6 (idle_driver 8 2))) in
  valid s ∧ pdc_Tx_in_progress s = true ∧
  ∃ s', drive_until_idle 4 s = Some (Ok s')
    ∧ handed_to_hardware s' = ["G"; "H"; "A"; "B"]%byte.
Proof.
  intros s.
  assert (H : valid s) by valid_by_computation.
  assert (Hip : pdc_Tx_in_progress s = true) by done.
  split; [done |]. split; [done |].
  destruct (drain_hands_over_pending s H Hip) as (s' & Hs' & _ & Hh & _).
  exists s'. split; [apply Hs'; lia |]. by rewrite Hh.
Defined.

(** ** Interrupt lines and objects *)

Lemma call_on_frame this f σ σ' :
  call_on this f σ = Ok σ' →
  UART0_ISR_instance_ptr σ' = UART0_ISR_instance_ptr σ
  ∧ UART1_ISR_instance_ptr σ' = UART1_ISR_instance_ptr σ
  ∧ UART0_IRQ_enabled σ' = UART0_IRQ_enabled σ
  ∧ UART1_IRQ_enabled σ' = UART1_IRQ_enabled σ
  ∧ ∀ o, o ≠ this → objects σ' !! o = objects σ !! o.
Proof.
  unfold call_on. destruct (f _) as [s |]; simpl; [| done].
  intros [= <-]. simpl. repeat split; try done.
  intros o Ho. by rewrite lookup_insert_ne.
Qed.

Lemma perform_lines a σ σ' :
  perform a σ = Ok σ' →
  enabled_lines_have_instances σ → enabled_lines_have_instances σ'.
Proof.
  intros Ha [H0 H1].
  destruct a as [this port rp rr rs tp tr ts baud par | this | this data n
                | this rxf txe | rxf txe | rxf txe]; simpl in Ha.
  - unfold call_init in Ha.
    destruct (init _ _ _ _ _ _ _ _ _ _ _) as [s |]; simpl in Ha; [| done].
    injection Ha as <-. unfold enabled_lines_have_instances. simpl.
    destruct port; split; eauto.
  - destruct (call_on_frame _ _ _ _ Ha) as (E0 & E1 & L0 & L1 & _).
    unfold enabled_lines_have_instances. rewrite E0, E1, L0, L1. done.
  - destruct (call_on_frame _ _ _ _ Ha) as (E0 & E1 & L0 & L1 & _).
    unfold enabled_lines_have_instances. rewrite E0, E1, L0, L1. done.
  - destruct (call_on_frame _ _ _ _ Ha) as (E0 & E1 & L0 & L1 & _).
    unfold enabled_lines_have_instances. rewrite E0, E1, L0, L1. done.
  - unfold UART0_Handler, call_through in Ha.
    destruct (UART0_ISR_instance_ptr σ) as [this |] eqn:Hp; [| done].
    destruct (call_on_frame _ _ _ _ Ha) as (E0 & E1 & L0 & L1 & _).
    unfold enabled_lines_have_instances. rewrite E0, E1, L0, L1, Hp. done.
  - unfold UART1_Handler, call_through in Ha.
    destruct (UART1_ISR_instance_ptr σ) as [this |] eqn:Hp; [| done].
    destruct (call_on_frame _ _ _ _ Ha) as (E0 & E1 & L0 & L1 & _).
    unfold enabled_lines_have_instances. rewrite E0, E1, L0, L1, Hp. done.
Qed.

Lemma perform_all_lines l : ∀ σ σ',
  perform_all l σ = Ok σ' →
  enabled_lines_have_instances σ → enabled_lines_have_instances σ'.
Proof.
  induction l as [| a l IH]; intros σ σ' Hrun Hinv; simpl in Hrun.
  - by simplify_eq.
  - destruct (perform a σ) as [σ1 |] eqn:Ha; simpl in Hrun; [| done].
    eapply IH; [done |]. by eapply perform_lines.
Qed.

Lemma perform_irq_enables a σ σ' :
  perform a σ = Ok σ' →
  UART0_IRQ_enabled σ' =
    match a with
    | Do_init _ UART_PORT_0 _ _ _ _ _ _ _ _ => true
    | _ => UART0_IRQ_enabled σ
    end
  ∧ UART1_IRQ_enabled σ' =
    match a with
    | Do_init _ UART_PORT_1 _ _ _ _ _ _ _ _ => true
    | _ => UART1_IRQ_enabled σ
    end.
Proof.
  intros Ha.
  destruct a as [this port rp rr rs tp tr ts baud par | this | this data n
                | this rxf txe | rxf txe | rxf txe]; simpl in Ha.
  - unfold call_init in Ha.
    destruct (init _ _ _ _ _ _ _ _ _ _ _) as [s |]; simpl in Ha; [| done].
    injection Ha as <-. by destruct port.
  - by destruct (call_on_frame _ _ _ _ Ha) as (_ & _ & L0 & L1 & _).
  - by destruct (call_on_frame _ _ _ _ Ha) as (_ & _ & L0 & L1 & _).
  - by destruct (call_on_frame _ _ _ _ Ha) as (_ & _ & L0 & L1 & _).
  - unfold UART0_Handler, call_through in Ha.
    destruct (UART0_ISR_instance_ptr σ) as [this |]; [| done].
    by destruct (call_on_frame _ _ _ _ Ha) as (_ & _ & L0 & L1 & _).
  - unfold UART1_Handler, call_through in Ha.
    destruct (UART1_ISR_instance_ptr σ) as [this |]; [| done].
    by destruct (call_on_frame _ _ _ _ Ha) as (_ & _ & L0 & L1 & _).
Qed.

Lemma perform_all_irq_enables l : ∀ σ σ',
  perform_all l σ = Ok σ' →
  (UART0_IRQ_enabled σ' = true
   ↔ UART0_IRQ_enabled σ = true ∨ Exists (is_init_of UART_PORT_0) l)
  ∧ (UART1_IRQ_enabled σ' = true
     ↔ UART1_IRQ_enabled σ = true ∨ Exists (is_init_of UART_PORT_1) l).
Proof.
  induction l as [| a l IH]; intros σ σ' Hrun; simpl in Hrun.
  - simplify_eq. rewrite !Exists_nil. tauto.
  - destruct (perform a σ) as [σ1 |] eqn:Ha; simpl in Hrun; [| done].
    destruct (perform_irq_enables _ _ _ Ha) as [E0 E1].
    destruct (IH _ _ Hrun) as [IH0 IH1].
    rewrite IH0, IH1, E0, E1, !Exists_cons.
    destruct a as [this port ? ? ? ? ? ? ? ? | | | | |]; simpl; try tauto.
    destruct port; simpl; split; split; intros; try tauto; intuition congruence.
Qed.

(** X13.  On every run from the start of the program the interrupt line of
    a port is enabled exactly when the run has called [init] for that port,
    and an enabled line always has an instance registered: the entry point
    of an enabled line never dereferences a null pointer. *)
Theorem enabled_line_has_an_instance :
  ∀ clock l σ rxf txe,
    perform_all l (startup clock) = Ok σ →
    (UART0_IRQ_enabled σ = true ↔ Exists (is_init_of UART_PORT_0) l)
    ∧ (UART1_IRQ_enabled σ = true ↔ Exists (is_init_of UART_PORT_1) l)
    ∧ (UART0_IRQ_enabled σ = true →
       is_Some (UART0_ISR_instance_ptr σ)
       ∧ UART0_Handler rxf txe σ ≠ Fault NullDereference)
    ∧ (UART1_IRQ_enabled σ = true →
       is_Some (UART1_ISR_instance_ptr σ)
       ∧ UART1_Handler rxf txe σ ≠ Fault NullDereference).
Proof.
  intros clock l σ rxf txe Hrun.
  destruct (perform_all_irq_enables l _ _ Hrun) as [E0 E1]. simpl in E0, E1.
  assert (Hinv : enabled_lines_have_instances σ).
  { eapply perform_all_lines; [done |]. split; simpl; congruence. }
  destruct Hinv as [H0 H1].
  split; [rewrite E0; intuition congruence |].
  split; [rewrite E1; intuition congruence |].
  unfold UART0_Handler, UART1_Handler.
  split; intros Hen.
  - destruct (H0 Hen) as [this Hthis]. rewrite Hthis.
    split; [done | apply call_through_set].
  - destruct (H1 Hen) as [this Hthis]. rewrite Hthis.
    split; [done | apply call_through_set].
Qed.

(** [init] for port 1 only. *)
Lemma enabled_line_has_an_instance_witness :
  let l := [Do_init 1%positive UART_PORT_1
              0x20000000 (replicate 8 "000"%byte) 8
              0x20001000 (replicate 8 "000"%byte) 8
              115200 UART_PARITY_NONE] in
  ∃ σ, perform_all l (startup 120000000) = Ok σ
    ∧ UART1_IRQ_enabled σ = true
    ∧ UART0_IRQ_enabled σ = false
    ∧ UART1_Handler false true σ ≠ Fault NullDereference.
Proof.
  intros l.
  let r := eval vm_compute in (perform_all l (startup 120000000)) in
  match r with Ok ?x => pose (σ := x) end.
  assert (Hrun : perform_all l (startup 120000000) = Ok σ) by (by vm_compute).
  exists σ. split; [done |]. split; [done |]. split; [done |].
  destruct (enabled_line_has_an_instance _ _ _ false true Hrun)
    as (_ & _ & _ & H1).
  by apply H1.
Defined.

(** ** One port, one object *)

Lemma irq_run_frame_0 l : ∀ σ σ' this,
  Forall is_irq_of_port_0 l →
  UART0_ISR_instance_ptr σ = Some this →
  perform_all l σ = Ok σ' →
  UART0_ISR_instance_ptr σ' = Some this
  ∧ UART1_ISR_instance_ptr σ' = UART1_ISR_instance_ptr σ
  ∧ ∀ o, o ≠ this → objects σ' !! o = objects σ !! o.
Proof.
  induction l as [| a l IH]; intros σ σ' this Hl Hp Hrun; simpl in Hrun.
  - by simplify_eq.
  - apply Forall_cons in Hl as [Ha Hl].
    destruct (perform a σ) as [σ1 |] eqn:Hstep; simpl in Hrun; [| done].
    destruct a; try done. simpl in Hstep.
    unfold UART0_Handler in Hstep. rewrite Hp in Hstep. simpl in Hstep.
    destruct (call_on_frame _ _ _ _ Hstep) as (E0 & E1 & _ & _ & Hobj).
    destruct (IH σ1 σ' this Hl) as (F0 & F1 & Fobj); [congruence | done |].
    split; [done |]. split; [congruence |].
    intros o Ho. rewrite Fobj, Hobj by done. done.
Qed.

Lemma irq_run_frame_1 l : ∀ σ σ' this,
  Forall is_irq_of_port_1 l →
  UART1_ISR_instance_ptr σ = Some this →
  perform_all l σ = Ok σ' →
  UART1_ISR_instance_ptr σ' = Some this
  ∧ UART0_ISR_instance_ptr σ' = UART0_ISR_instance_ptr σ
  ∧ ∀ o, o ≠ this → objects σ' !! o = objects σ !! o.
Proof.
  induction l as [| a l IH]; intros σ σ' this Hl Hp Hrun; simpl in Hrun.
  - by simplify_eq.
  - apply Forall_cons in Hl as [Ha Hl].
    destruct (perform a σ) as [σ1 |] eqn:Hstep; simpl in Hrun; [| done].
    destruct a; try done. simpl in Hstep.
    unfold UART1_Handler in Hstep. rewrite Hp in Hstep. simpl in Hstep.
    destruct (call_on_frame _ _ _ _ Hstep) as (E0 & E1 & _ & _ & Hobj).
    destruct (IH σ1 σ' this Hl) as (F0 & F1 & Fobj); [congruence | done |].
    split; [done |]. split; [congruence |].
    intros o Ho. rewrite Fobj, Hobj by done. done.
Qed.

(** X14.  The object that called [init] last for a port owns the port: any
    number of interrupts of that port run the handler of that object only
    and leave the data members of every other object, one registered
    earlier for the same port included, and the pointer of the other port
    as they were. *)
Theorem last_init_owns_the_port :
  ∀ this rp rr rs tp tr ts baud par σ σ1 l σ2,
    (call_init this UART_PORT_0 rp rr rs tp tr ts baud par σ = Ok σ1 →
     Forall is_irq_of_port_0 l →
     perform_all l σ1 = Ok σ2 →
     UART0_ISR_instance_ptr σ2 = Some this
     ∧ UART1_ISR_instance_ptr σ2 = UART1_ISR_instance_ptr σ
     ∧ ∀ o, o ≠ this →
         members <$> objects σ2 !! o = members <$> objects σ !! o)
    ∧ (call_init this UART_PORT_1 rp rr rs tp tr ts baud par σ = Ok σ1 →
       Forall is_irq_of_port_1 l →
       perform_all l σ1 = Ok σ2 →
       UART1_ISR_instance_ptr σ2 = Some this
       ∧ UART0_ISR_instance_ptr σ2 = UART0_ISR_instance_ptr σ
       ∧ ∀ o, o ≠ this →
           members <$> objects σ2 !! o = members <$> objects σ !! o).
Proof.
  intros. split; intros Hinit Hl Hrun.
  - unfold call_init in Hinit.
    destruct (init _ _ _ _ _ _ _ _ _ _ _) as [s |]; simpl in Hinit; [| done].
    injection Hinit as <-.
    match type of Hrun with perform_all _ ?x = _ =>
      destruct (irq_run_frame_0 l x σ2 this Hl eq_refl Hrun) as (F0 & F1 & Fobj)
    end.
    split; [done |]. split; [done |].
    intros o Ho. rewrite Fobj by done. simpl. by rewrite lookup_insert_ne.
  - unfold call_init in Hinit.
    destruct (init _ _ _ _ _ _ _ _ _ _ _) as [s |]; simpl in Hinit; [| done].
    injection Hinit as <-.
    match type of Hrun with perform_all _ ?x = _ =>
      destruct (irq_run_frame_1 l x σ2 this Hl eq_refl Hrun) as (F0 & F1 & Fobj)
    end.
    split; [done |]. split; [done |].
    intros o Ho. rewrite Fobj by done. simpl. by rewrite lookup_insert_ne.
Qed.

(** Object 1, then object 2 are initialised on port 0; a packet is queued
    on object 1; the interrupts of port 0 no longer reach object 1. *)
Lemma last_init_owns_the_port_witness :
  ∃ σ0 σ1 σ2,
    perform_all
      [Do_init 1%positive UART_PORT_0
         0x20000000 (replicate 8 "000"%byte) 8
         0x20001000 (replicate 8 "000"%byte) 8 115200 UART_PARITY_NONE;
       Do_copy_packet 1%positive ["A"; "B"; "C"]%byte 3]
      (startup 120000000) = Ok σ0
    ∧ call_init 2%positive UART_PORT_0
        0x20002000 (replicate 8 "000"%byte) 8
        0x20003000 (replicate 8 "000"%byte) 8 115200 UART_PARITY_NONE σ0
      = Ok σ1
    ∧ perform_all [Irq_UART0 false true; Irq_UART0 false true] σ1 = Ok σ2
    ∧ UART0_ISR_instance_ptr σ2 = Some 2%positive
    ∧ members <$> objects σ2 !! 1%positive
      = members <$> objects σ0 !! 1%positive
    ∧ pdc_Tx_in_progress (object_at 1%positive σ2) = true.
Proof.
  let r := eval vm_compute in
    (perform_all
      [Do_init 1%positive UART_PORT_0
         0x20000000 (replicate 8 "000"%byte) 8
         0x20001000 (replicate 8 "000"%byte) 8 115200 UART_PARITY_NONE;
       Do_copy_packet 1%positive ["A"; "B"; "C"]%byte 3]
      (startup 120000000)) in
  match r with Ok ?x => pose (σ0 := x) end.
  let r := eval vm_compute in
    (call_init 2%positive UART_PORT_0
        0x20002000 (replicate 8 "000"%byte) 8
        0x20003000 (replicate 8 "000"%byte) 8 115200 UART_PARITY_NONE σ0) in
  match r with Ok ?x => pose (σ1 := x) end.
  let r := eval vm_compute in
    (perform_all [Irq_UART0 false true; Irq_UART0 false true] σ1) in
  match r with Ok ?x => pose (σ2 := x) end.
  exists σ0, σ1, σ2.
  assert (H0 : perform_all
      [Do_init 1%positive UART_PORT_0
         0x20000000 (replicate 8 "000"%byte) 8
         0x20001000 (replicate 8 "000"%byte) 8 115200 UART_PARITY_NONE;
       Do_copy_packet 1%positive ["A"; "B"; "C"]%byte 3]
      (startup 120000000) = Ok σ0) by (by vm_compute).
  assert (H1 : call_init 2%positive UART_PORT_0
        0x20002000 (replicate 8 "000"%byte) 8
        0x20003000 (replicate 8 "000"%byte) 8 115200 UART_PARITY_NONE σ0
      = Ok σ1) by (by vm_compute).
  assert (H2 : perform_all [Irq_UART0 false true; Irq_UART0 false true] σ1
               = Ok σ2) by (by vm_compute).
  assert (Hl : Forall is_irq_of_port_0 [Irq_UART0 false true; Irq_UART0 false true])
    by (repeat constructor).
  split; [done |]. split; [done |]. split; [done |].
  destruct (proj1 (last_init_owns_the_port _ _ _ _ _ _ _ _ _ _ _ _ _) H1 Hl H2)
    as (Hp & _ & Hobj).
  split; [done |]. split; [by apply Hobj |]. done.
Defined.

(** ** Pending bytes *)

Lemma lookup_pending_bytes s i :
  valid s → 0 ≤ i < get_number_of_unsent_bytes s →
  pending_bytes s !! Z.to_nat i
  = tx_storage s !! Z.to_nat ((tx_buffer_tail_index s + i) mod tx_buffer_size s).
Proof.
  intros H Hi.
  assert (Hm : region_size (tx_storage s) = tx_buffer_size s) by apply H.
  assert (Hh : 0 ≤ tx_buffer_head_index s < tx_buffer_size s) by apply H.
  assert (Ht : 0 ≤ tx_buffer_tail_index s < tx_buffer_size s) by apply H.
  unfold pending_bytes.
  destruct (tx_buffer_head_index s <? tx_buffer_tail_index s) eqn:Hc;
    [apply Z.ltb_lt in Hc | apply Z.ltb_ge in Hc].
  - rewrite unsent_wrapped in Hi by done.
    assert (Hl : region_size (slice (tx_storage s) (tx_buffer_tail_index s)
                                (tx_buffer_size s - tx_buffer_tail_index s))
                 = tx_buffer_size s - tx_buffer_tail_index s)
      by (apply length_slice; lia).
    unfold region_size in Hl.
    destruct (decide (i < tx_buffer_size s - tx_buffer_tail_index s)).
    + rewrite lookup_app_l by lia. rewrite lookup_slice by lia.
      by rewrite Z.mod_small by lia.
    + rewrite lookup_app_r by lia.
      replace (Z.to_nat i
               - length (slice (tx_storage s) (tx_buffer_tail_index s)
                           (tx_buffer_size s - tx_buffer_tail_index s)))%nat
        with (Z.to_nat (i - (tx_buffer_size s - tx_buffer_tail_index s))) by lia.
      rewrite lookup_slice by lia. f_equal. f_equal.
      replace (tx_buffer_tail_index s + i)
        with (tx_buffer_tail_index s + i - tx_buffer_size s + 1 * tx_buffer_size s)
        by lia.
      rewrite Z.mod_add by lia. rewrite Z.mod_small; lia.
  - rewrite unsent_contiguous in Hi by done.
    rewrite lookup_slice by lia. by rewrite Z.mod_small by lia.
Qed.

Lemma pending_bytes_ext s (l : list byte) :
  valid s →
  region_size l = get_number_of_unsent_bytes s →
  (∀ i, 0 ≤ i < get_number_of_unsent_bytes s →
     l !! Z.to_nat i
     = tx_storage s !! Z.to_nat ((tx_buffer_tail_index s + i) mod tx_buffer_size s)) →
  pending_bytes s = l.
Proof.
  intros H Hlen Hl. pose proof (region_size_pending_bytes s H) as Hp.
  apply list_eq. intros i.
  destruct (decide (Z.of_nat i < get_number_of_unsent_bytes s)).
  - replace i with (Z.to_nat (Z.of_nat i)) by lia.
    rewrite lookup_pending_bytes by (done || lia). by rewrite Hl by lia.
  - rewrite !lookup_ge_None_2; [done | |]; unfold region_size in *; lia.
Qed.

Lemma enqueue_outcome_appends data s :
  valid s →
  pdc_Tx_in_progress s = true →
  get_number_of_unsent_bytes s + region_size data < tx_buffer_size s →
  copy_packet_into_Tx_buffer_and_transmit data (region_size data) s
  = Ok (enqueue_outcome data s)
  ∧ pending_bytes (enqueue_outcome data s) = pending_bytes s ++ data
  ∧ get_number_of_unsent_bytes (enqueue_outcome data s)
    = get_number_of_unsent_bytes s + region_size data
  ∧ handed_to_hardware (enqueue_outcome data s) = handed_to_hardware s.
Proof.
  intros H Hip Hfree.
  pose proof (unsent_range s H) as Hur.
  pose proof (region_size_nonneg data) as Hd.
  assert (Hn : region_size data ≤ tx_buffer_size s) by lia.
  assert (Hc : 0 < tx_buffer_size s) by lia.
  assert (Hh : 0 ≤ tx_buffer_head_index s < tx_buffer_size s) by apply H.
  assert (Ht : 0 ≤ tx_buffer_tail_index s < tx_buffer_size s) by apply H.
  split; [by apply copy_packet_Ok |].
  pose proof (valid_enqueue_outcome data s H Hn) as Hv.
  assert (Hu : get_number_of_unsent_bytes (enqueue_outcome data s)
               = get_number_of_unsent_bytes s + region_size data).
  { rewrite (unsent_spec _ Hv). rewrite enqueue_outcome_size, enqueue_outcome_head.
    unfold enqueue_outcome. rewrite Hip. simpl.
    replace ((tx_buffer_head_index s + region_size data) mod tx_buffer_size s
             - tx_buffer_tail_index s + tx_buffer_size s)
      with ((tx_buffer_head_index s + region_size data) mod tx_buffer_size s
            + (tx_buffer_size s - tx_buffer_tail_index s)) by lia.
    rewrite mod_advance by done.
    rewrite unsent_spec in * by done.
    rewrite <- (Z.mod_small (_ mod _ + region_size data) (tx_buffer_size s)) by lia.
    rewrite mod_advance by done. f_equal. lia. }
  assert (Hhead : tx_buffer_head_index s
                  = (tx_buffer_tail_index s + get_number_of_unsent_bytes s)
                      mod tx_buffer_size s).
  { rewrite unsent_spec by done. rewrite Zplus_mod_idemp_r.
    replace (tx_buffer_tail_index s
             + (tx_buffer_head_index s - tx_buffer_tail_index s + tx_buffer_size s))
      with (tx_buffer_head_index s + 1 * tx_buffer_size s) by lia.
    rewrite Z.mod_add by lia. by rewrite Z.mod_small. }
  split; [| split; [done |]].
  2:{ unfold enqueue_outcome. by rewrite Hip. }
  apply pending_bytes_ext; [done | |].
  - rewrite region_size_app, Hu, region_size_pending_bytes by done. done.
  - intros i Hi. rewrite Hu in Hi.
    rewrite enqueue_outcome_storage, enqueue_outcome_size.
    replace (tx_buffer_tail_index (enqueue_outcome data s))
      with (tx_buffer_tail_index s)
      by (unfold enqueue_outcome; by rewrite Hip).
    rewrite lookup_written; [| done | done | by apply Z.mod_pos_bound].
    assert (Hk : ((tx_buffer_tail_index s + i) mod tx_buffer_size s
                  - tx_buffer_head_index s) mod tx_buffer_size s
                 = (i - get_number_of_unsent_bytes s) mod tx_buffer_size s).
    { transitivity
        (((tx_buffer_tail_index s + i) mod tx_buffer_size s
          - (tx_buffer_tail_index s + get_number_of_unsent_bytes s)
              mod tx_buffer_size s) mod tx_buffer_size s).
      - by rewrite <- Hhead.
      - rewrite <- Zminus_mod. f_equal. lia. }
    rewrite Hk.
    destruct (decide (i < get_number_of_unsent_bytes s)).
    + replace (i - get_number_of_unsent_bytes s)
        with (i - get_number_of_unsent_bytes s + tx_buffer_size s
              + -1 * tx_buffer_size s) by lia.
      rewrite Z.mod_add by lia. rewrite Z.mod_small by lia.
      case_decide; [lia |].
      rewrite lookup_app_l.
      2:{ pose proof (region_size_pending_bytes s H). unfold region_size in *. lia. }
      by rewrite lookup_pending_bytes by (done || lia).
    + rewrite Z.mod_small by lia. case_decide; [| lia].
      rewrite lookup_app_r.
      2:{ pose proof (region_size_pending_bytes s H). unfold region_size in *. lia. }
      f_equal. pose proof (region_size_pending_bytes s H). unfold region_size in *. lia.
Qed.

(** X15.  A packet enqueued on a valid driver while a transfer is in
    progress, with the unsent count and its length adding up to less than
    [tx_capacity], is appended to the pending bytes: the bytes between tail
    and head afterwards are those before the call followed by the packet,
    the unsent count grows by the length, and nothing is handed to the
    hardware by the call. *)
Theorem enqueue_while_busy_appends :
  ∀ (data : list byte) (s : serial_circular_buffer),
    valid s →
    pdc_Tx_in_progress s = true →
    get_number_of_unsent_bytes s + region_size data < tx_buffer_size s →
    ∃ s',
      copy_packet_into_Tx_buffer_and_transmit data (region_size data) s = Ok s'
      ∧ pending_bytes s' = pending_bytes s ++ data
      ∧ get_number_of_unsent_bytes s'
        = get_number_of_unsent_bytes s + region_size data
      ∧ handed_to_hardware s' = handed_to_hardware s.
Proof.
  intros data s H Hip Hfree. exists (enqueue_outcome data s).
  by apply enqueue_outcome_appends.
Qed.

(** Capacity 8 holding [A] to [H], tail 6, head 1, three more bytes. *)
Lemma enqueue_while_busy_appends_witness :
  let s := set_pdc_Tx_in_progress true
             (set_tx_storage ["A"; "B"; "C"; "D"; "E"; "F"; "G"; "H"]%byte
                (set_tx_buffer_tail_index 6 (idle_driver 8 1))) in
  let data := ["x"; "y"; "z"]%byte in
  valid s ∧ pdc_Tx_in_progress s = true ∧
  get_number_of_unsent_bytes s + region_size data < tx_buffer_size s ∧
  ∃ s', copy_packet_into_Tx_buffer_and_transmit data 3 s = Ok s'
        ∧ pending_bytes s' = ["G"; "H"; "A"; "x"; "y"; "z"]%byte.
Proof.
  intros s data.
  assert (H : valid s) by valid_by_computation.
  assert (Hip : pdc_Tx_in_progress s = true) by done.
  assert (Hfree : get_number_of_unsent_bytes s + region_size data < tx_buffer_size s)
    by done.
  split; [done |]. split; [done |]. split; [done |].
  destruct (enqueue_while_busy_appends data s H Hip Hfree) as (s' & Hs' & Hp & _).
  exists s'. split; [done |]. by rewrite Hp.
Defined.

(** ** Empty packets below the capacity *)

Lemma pending_bytes_empty s :
  tx_buffer_tail_index s = tx_buffer_head_index s → pending_bytes s = [].
Proof.
  intros Heq. unfold pending_bytes.
  by rewrite Heq, Z.ltb_irrefl, Z.sub_diag.
Qed.

Lemma unsent_after_transmit_complete s :
  valid s →
  get_number_of_unsent_bytes (transmit_complete_outcome false s)
  ≤ get_number_of_unsent_bytes s.
Proof.
  intros H.
  pose proof (valid_transmit_complete_outcome false s H) as Hv.
  pose proof (unsent_range s H) as Hur.
  assert (Hc : 0 < tx_buffer_size s) by (destruct H; lia).
  assert (Hh : 0 ≤ tx_buffer_head_index s < tx_buffer_size s) by apply H.
  assert (Ht : 0 ≤ tx_buffer_tail_index s < tx_buffer_size s) by apply H.
  revert Hv. unfold transmit_complete_outcome, receive_rearmed.
  destruct (get_number_of_unsent_bytes s =? 0) eqn:Hz; intros Hv.
  - unfold get_number_of_unsent_bytes. simpl. lia.
  - apply Z.eqb_neq in Hz. rewrite (unsent_spec _ Hv). simpl.
    unfold next_run.
    destruct (tx_buffer_head_index s <? tx_buffer_tail_index s) eqn:Hlt.
    + apply Z.ltb_lt in Hlt. rewrite (unsent_wrapped s) by done.
      replace (tx_buffer_tail_index s + (tx_buffer_size s - tx_buffer_tail_index s))
        with (tx_buffer_size s) by lia.
      rewrite Z.mod_same by lia.
      replace (tx_buffer_head_index s - 0 + tx_buffer_size s)
        with (tx_buffer_head_index s + 1 * tx_buffer_size s) by lia.
      rewrite Z.mod_add by lia. rewrite Z.mod_small; lia.
    + apply Z.ltb_ge in Hlt. rewrite (unsent_contiguous s) by done.
      replace (tx_buffer_tail_index s
               + (tx_buffer_head_index s - tx_buffer_tail_index s))
        with (tx_buffer_head_index s) by lia.
      rewrite (Z.mod_small (tx_buffer_head_index s)) by lia.
      replace (tx_buffer_head_index s - tx_buffer_head_index s + tx_buffer_size s)
        with (1 * tx_buffer_size s) by lia.
      rewrite Z.mod_mul by lia. lia.
Qed.

Lemma accounted_draining before queued x :
  accounted before queued x → draining x x.
Proof.
  intros (Hv & _ & Hbusy & Hidle).
  split; [done |]. do 2 (split; [done |]). split; [done |].
  intros Hip. destruct (Hidle Hip) as [Heq _].
  split; [done |]. by rewrite pending_bytes_empty, app_nil_r.
Qed.

Lemma accounted_transmit_complete before queued x rxf :
  accounted before queued x →
  accounted before queued (transmit_complete_outcome rxf x).
Proof.
  intros Ha. rewrite transmit_complete_after_rearm.
  assert (Ha' : accounted before queued (receive_rearmed rxf x)).
  { destruct Ha as (Hv & Hu & Hbusy & Hidle).
    split; [by apply valid_receive_rearmed |]. by destruct rxf. }
  clear Ha. set (y := receive_rearmed rxf x) in *.
  pose proof (draining_step y y (accounted_draining _ _ _ Ha'))
    as (Hv' & _ & _ & Hbusy' & Hidle').
  destruct Ha' as (Hv & Hu & Hbusy & Hidle).
  pose proof (unsent_after_transmit_complete y Hv).
  assert (Htotal : handed_to_hardware y ++ pending_bytes y = before ++ queued).
  { destruct (pdc_Tx_in_progress y) eqn:Hip; [by apply Hbusy |].
    destruct (Hidle eq_refl) as [Heq Hh].
    by rewrite pending_bytes_empty, app_nil_r. }
  split; [done |]. split; [lia |]. split.
  - intros Hip. by rewrite Hbusy'.
  - intros Hip. destruct (Hidle' Hip) as [Heq Hh]. split; [done | congruence].
Qed.

Lemma accounted_receive_rearmed before queued x rxf :
  accounted before queued x → accounted before queued (receive_rearmed rxf x).
Proof.
  intros (Hv & Hu & Hbusy & Hidle).
  split; [by apply valid_receive_rearmed |]. by destruct rxf.
Qed.

(** On an idle driver the bytes armed by the call and the bytes left
    pending make up the packet. *)
Lemma enqueue_outcome_on_idle data s :
  valid s →
  pdc_Tx_in_progress s = false →
  tx_buffer_tail_index s = tx_buffer_head_index s →
  region_size data ≤ tx_buffer_size s →
  handed_to_hardware (enqueue_outcome data s) ++ pending_bytes (enqueue_outcome data s)
  = handed_to_hardware s ++ data
  ∧ get_number_of_unsent_bytes (enqueue_outcome data s) ≤ region_size data.
Proof.
  intros H Hip Heq Hn.
  pose proof (first_block_range data s H Hn) as (Hf1 & Hf2 & Hs1 & Hfs).
  pose proof (valid_enqueue_outcome data s H Hn) as Hv.
  pose proof (enqueue_outcome_storage data s) as Hst.
  pose proof (enqueue_outcome_head data s) as Hhd.
  pose proof (enqueue_outcome_size data s) as Hsz.
  assert (Hc : 0 < tx_buffer_size s ≤ 2 ^ 31) by apply H.
  assert (Hh : 0 ≤ tx_buffer_head_index s < tx_buffer_size s) by apply H.
  assert (Hsec : second_block s (region_size data) < tx_buffer_size s) by lia.
  set (f := first_block s (region_size data)) in *.
  set (g := second_block s (region_size data)) in *.
  assert (Htl : tx_buffer_tail_index (enqueue_outcome data s)
                = (tx_buffer_head_index s + f) mod tx_buffer_size s).
  { unfold enqueue_outcome. rewrite Hip. simpl. by rewrite Heq. }
  assert (Hhanded : handed_to_hardware (enqueue_outcome data s)
                    = handed_to_hardware s ++ take (Z.to_nat f) data).
  { unfold enqueue_outcome. rewrite Hip. rewrite handed_initiate.
    change (handed_to_hardware (preloaded data s)) with (handed_to_hardware s).
    change (tx_storage (preloaded data s)) with (written data s).
    by rewrite slice_written. }
  assert (Hu : get_number_of_unsent_bytes (enqueue_outcome data s) = g).
  { rewrite (unsent_spec _ Hv), Hhd, Htl, Hsz.
    rewrite mod_difference by lia.
    replace (tx_buffer_head_index s + region_size data - (tx_buffer_head_index s + f))
      with g by lia.
    rewrite Z.mod_small; lia. }
  split; [| lia].
  rewrite Hhanded, <- app_assoc. f_equal.
  rewrite <- (take_drop (Z.to_nat f) data) at 3. f_equal.
  apply pending_bytes_ext; [done | |].
  - rewrite Hu. unfold region_size in *. rewrite length_drop. lia.
  - intros i Hi. rewrite Hu in Hi. rewrite Hst, Htl, Hsz.
    rewrite mod_advance by lia.
    rewrite lookup_written; [| done | done | apply Z.mod_pos_bound; lia].
    rewrite Zminus_mod_idemp_l.
    replace (tx_buffer_head_index s + f + i - tx_buffer_head_index s)
      with (f + i) by lia.
    destruct (decide (f + i < tx_buffer_size s)).
    + rewrite Z.mod_small by lia. case_decide; [| lia].
      rewrite lookup_drop. f_equal. lia.
    + lia.
Qed.

Lemma accounted_enqueue before queued x data :
  accounted before queued x →
  region_size queued + region_size data < tx_buffer_size x →
  accounted before (queued ++ data) (enqueue_outcome data x).
Proof.
  intros (Hv & Hu & Hbusy & Hidle) Hcap.
  pose proof (region_size_nonneg data) as Hd.
  pose proof (region_size_nonneg queued) as Hq.
  assert (Hn : region_size data ≤ tx_buffer_size x) by lia.
  split; [by apply valid_enqueue_outcome |].
  rewrite region_size_app.
  destruct (pdc_Tx_in_progress x) eqn:Hip.
  - destruct (enqueue_outcome_appends data x Hv Hip) as (_ & Hp & Hu' & Hh); [lia |].
    split; [lia |]. split.
    + intros _. rewrite Hp, Hh, app_assoc, Hbusy by done. by rewrite app_assoc.
    + rewrite enqueue_outcome_busy. done.
  - destruct (Hidle eq_refl) as [Heq Hh].
    destruct (enqueue_outcome_on_idle data x Hv Hip Heq Hn) as [Htot Hu'].
    split; [lia |]. split.
    + intros _. rewrite Htot, Hh. by rewrite app_assoc.
    + rewrite enqueue_outcome_busy. done.
Qed.

Lemma accounted_handle before queued x e :
  accounted before queued x →
  region_size queued + region_size (enqueued [e]) < tx_buffer_size x →
  ∃ x', handle e x = Ok x'
        ∧ tx_buffer_size x' = tx_buffer_size x
        ∧ accounted before (queued ++ enqueued [e]) x'.
Proof.
  intros Ha Hcap. assert (Hv : valid x) by apply Ha.
  pose proof (region_size_nonneg queued) as Hq.
  destruct e as [data | rxf txe].
  - change (enqueued [Enqueue data]) with (data ++ []) in *.
    rewrite app_nil_r in *.
    exists (enqueue_outcome data x). split.
    { apply copy_packet_Ok; [done | lia]. }
    split; [apply enqueue_outcome_size |]. by apply accounted_enqueue.
  - change (enqueued [Interrupt rxf txe]) with (@nil byte) in *.
    rewrite app_nil_r. destruct txe.
    + exists (transmit_complete_outcome rxf x). split.
      { by apply irq_transmit_Ok. }
      split; [| by apply accounted_transmit_complete].
      unfold transmit_complete_outcome. case_match; by destruct rxf.
    + exists (receive_rearmed rxf x). split; [done |].
      split; [by destruct rxf | by apply accounted_receive_rearmed].
Qed.

Lemma accounted_handle_all l : ∀ before queued x,
  accounted before queued x →
  region_size queued + region_size (enqueued l) < tx_buffer_size x →
  ∃ x', handle_all l x = Ok x'
        ∧ accounted before (queued ++ enqueued l) x'.
Proof.
  induction l as [| e l IH]; intros before queued x Ha Hcap.
  - exists x. simpl. by rewrite app_nil_r.
  - assert (Hsplit : enqueued (e :: l) = enqueued [e] ++ enqueued l).
    { destruct e; simpl; by rewrite ?app_nil_r. }
    rewrite Hsplit, region_size_app in *.
    pose proof (region_size_nonneg (enqueued l)).
    pose proof (region_size_nonneg (enqueued [e])).
    destruct (accounted_handle before queued x e Ha) as (x1 & Hx1 & Hsz & Ha1);
      [lia |].
    destruct (IH _ _ _ Ha1) as (x2 & Hx2 & Ha2).
    { rewrite region_size_app, Hsz. lia. }
    exists x2. simpl. rewrite Hx1. simpl. split; [done |].
    by rewrite app_assoc.
Qed.

(** X16.  Empty packets are harmless below the capacity.  From a valid,
    idle driver, any sequence of enqueues (empty ones included) and
    interrupts whose enqueued bytes add up to strictly less than
    [tx_capacity] runs without a fault; serving transmit-complete
    interrupts afterwards reaches the idle state within four of them, and
    the bytes handed to the hardware are then those handed over before
    followed by the enqueued bytes, in order. *)
Theorem bytes_reach_hardware_below_capacity :
  ∀ (l : list event) (s : serial_circular_buffer),
    valid s → idle s →
    region_size (enqueued l) < tx_buffer_size s →
    ∃ s1 s2,
      handle_all l s = Ok s1
      ∧ (∀ fuel, (3 < fuel)%nat → drive_until_idle fuel s1 = Some (Ok s2))
      ∧ pdc_Tx_in_progress s2 = false
      ∧ handed_to_hardware s2 = handed_to_hardware s ++ enqueued l.
Proof.
  intros l s H [Hip Heq] Hcap.
  assert (Ha : accounted (handed_to_hardware s) [] s).
  { split; [done |]. split.
    - unfold get_number_of_unsent_bytes.
      rewrite (proj2 (wrapped_difference_zero _ _ _ (valid_tx_size s H)
                        (valid_tx_head s H) (valid_tx_tail s H)) Heq). done.
    - split; [congruence |]. intros _. split; [done | by rewrite app_nil_r]. }
  destruct (accounted_handle_all l _ _ _ Ha) as (s1 & Hs1 & Ha1).
  { change (region_size []) with 0. lia. }
  rewrite app_nil_l in Ha1.
  assert (Hv1 : valid s1) by apply Ha1.
  destruct (drive_until_idle_terminates 3 s1 Hv1 (interrupts_to_idle_bound _))
    as [s2 Hs2].
  exists s1, s2. split; [done |]. split; [done |].
  destruct (drive_until_idle_invariant
              (accounted (handed_to_hardware s) (enqueued l))
              (λ x Hx, proj1 Hx)
              (λ x Hx, accounted_transmit_complete _ _ x false Hx)
              4 s1 s2 Ha1) as [(_ & _ & _ & Hidle) Hip2].
  { apply Hs2. lia. }
  split; [done |]. by apply Hidle.
Qed.

(** Capacity 8, head 6: empty packets around a packet that wraps. *)
Lemma bytes_reach_hardware_below_capacity_witness :
  let s := idle_driver 8 6 in
  let l := [Enqueue [];
            Enqueue ["A"; "B"; "C"; "D"; "E"]%byte;
            Enqueue [];
            Interrupt false true;
            Enqueue ["F"; "G"]%byte] in
  valid s ∧ idle s ∧ region_size (enqueued l) < tx_buffer_size s ∧
  ∃ s1 s2,
    handle_all l s = Ok s1
    ∧ drive_until_idle 4 s1 = Some (Ok s2)
    ∧ handed_to_hardware s2 = ["A"; "B"; "C"; "D"; "E"; "F"; "G"]%byte.
Proof.
  intros s l.
  assert (H : valid s) by valid_by_computation.
  assert (Hi : idle s) by done.
  assert (Hcap : region_size (enqueued l) < tx_buffer_size s) by done.
  split; [done |]. split; [done |]. split; [done |].
  destruct (bytes_reach_hardware_below_capacity l s H Hi Hcap)
    as (s1 & s2 & Hs1 & Hs2 & _ & Hb).
  exists s1, s2. split; [done |]. split; [apply Hs2; lia | done].
Defined.
